(** * The turn-based battle engine of [battle/xe_battle_lib_v2.py]

    A shallow embedding of the engine (moves, units, the match state machine
    and the helper that builds a match from database instances) and the
    properties of it that the specification states.

    Modelling conventions.
    - Python [int] is [Z].  List positions ([p1_active_index], the values of
      [range]) are [nat]: they start at [0] and are only ever assigned a value
      produced by [range(current_index + 1, len(balls))].
    - Python [float] is modelled by exact rationals [Q]: a literal stands for
      its decimal value, sums and products are exact and [int(x)] truncates
      toward zero.  For every value [random.random()] can return (a multiple
      of [2^-53] in [[0, 1)]) the comparisons with [0.1], [0.3] and [0.5] come
      out as they do on doubles; the rounding of the other operations is
      idealised.  A product such as [attack * u] can therefore be one off
      the double after truncation (attack 100 with the draw 0.875 gives 115
      here, 114 on doubles); of a rolled damage the properties below use its
      sign, its halving and what is done with it, not its exact size.
    - [random.random()] reads the next value of an explicit random source;
      [random.uniform(a, b)] is [a + (b - a) * random.random()], as the
      [random] module defines it.
    - The two lists of a match own their units: a unit object sits in one
      slot.  The attacker and the defender of an action are looked up by
      player name, and name them the same object when both names select the
      same team; [Fighters] keeps that aliasing. *)

From Stdlib Require Import ZArith QArith Lia.
From stdpp Require Import base list strings gmap pretty.

Local Open Scope Z_scope.
Local Open Scope string_scope.

(** ** Floats and the random source *)

Module Float.

(** [int(x)] for a float [x]: truncation toward zero. *)
Definition int (x : Q) : Z := Z.quot (Qnum x) (Z.pos (Qden x)).

(** [float(n)] for an integer [n], implicit in [n * x]. *)
Definition of_int (n : Z) : Q := inject_Z n.

(** [x < y] on floats. *)
Definition ltb (x y : Q) : bool := negb (Qle_bool y x).

End Float.

(** The state of the [random] module: the sequence of values that successive
    calls of [random.random()] return, and how many were consumed. *)
Record Rng := mkRng {
  tape : nat -> Q;
  cursor : nat
}.

Module random.

Definition random (g : Rng) : Q * Rng :=
  (tape g (cursor g), mkRng (tape g) (S (cursor g))).

Definition uniform (a b : Q) (g : Rng) : Q * Rng :=
  let '(r, g') := random g in
  ((a + (b - a) * r)%Q, g').

End random.

(** The value the next call of [random.random()] returns, and the source
    after that call. *)
Definition peek (g : Rng) : Q := fst (random.random g).
Definition advance (g : Rng) : Rng := snd (random.random g).

(** ** Moves and units *)

Inductive MoveType := ATTACK | HEAVY_ATTACK | DEFEND | HEAL.

#[global] Instance MoveType_eq_dec : EqDecision MoveType.
Proof. solve_decision. Defined.

Record BattleMove := mkBattleMove {
  move_name : string;
  move_type : MoveType;
  description : string;
  move_emoji : string
}.

Record BattleBall := mkBattleBall {
  name : string;
  owner : string;
  health : Z;
  attack : Z;
  max_health : Z;
  emoji : string;
  dead : bool;
  defending : bool
}.

Definition set_health (v : Z) (b : BattleBall) : BattleBall :=
  mkBattleBall (name b) (owner b) v (attack b) (max_health b) (emoji b)
               (dead b) (defending b).

Definition set_max_health (v : Z) (b : BattleBall) : BattleBall :=
  mkBattleBall (name b) (owner b) (health b) (attack b) v (emoji b)
               (dead b) (defending b).

Definition set_dead (v : bool) (b : BattleBall) : BattleBall :=
  mkBattleBall (name b) (owner b) (health b) (attack b) (max_health b)
               (emoji b) v (defending b).

Definition set_defending (v : bool) (b : BattleBall) : BattleBall :=
  mkBattleBall (name b) (owner b) (health b) (attack b) (max_health b)
               (emoji b) (dead b) v.

(** [BattleBall.__post_init__]. *)
Definition post_init (b : BattleBall) : BattleBall :=
  if decide (max_health b = 0) then set_max_health (health b) b else b.

(** The default of the dataclass field [max_health]. *)
Definition default_max_health : Z := 0.

(** [BattleBall(name, owner, health, attack, max_health, emoji, dead,
    defending)]: the generated [__init__] stores the fields and then runs
    [__post_init__]. *)
Definition new_BattleBall (name owner : string) (health attack max_health : Z)
    (emoji : string) (dead defending : bool) : BattleBall :=
  post_init (mkBattleBall name owner health attack max_health emoji dead defending).

(** The dictionary a move or an action returns.  [execute] fills every key;
    the two error dictionaries of [_execute_single_action] only have
    ["message"] and ["success"], the other keys are absent ([None]). *)
Record Event := mkEvent {
  success : bool;
  damage : option Z;
  heal : option Z;
  message : string;
  crit : option bool;
  miss : option bool
}.

Definition set_message (m : string) (r : Event) : Event :=
  mkEvent (success r) (damage r) (heal r) m (crit r) (miss r).

Definition set_damage (d : Z) (r : Event) : Event :=
  mkEvent (success r) (Some d) (heal r) (message r) (crit r) (miss r).

(** The attacker and the defender handed to [BattleMove.execute]: two unit
    objects, or one object under both names. *)
Inductive Fighters :=
  | TwoUnits (attacker defender : BattleBall)
  | OneUnit (both : BattleBall).

Definition attacker_of (f : Fighters) : BattleBall :=
  match f with TwoUnits a _ => a | OneUnit b => b end.

Definition defender_of (f : Fighters) : BattleBall :=
  match f with TwoUnits _ d => d | OneUnit b => b end.

Definition on_attacker (u : BattleBall -> BattleBall) (f : Fighters) : Fighters :=
  match f with
  | TwoUnits a d => TwoUnits (u a) d
  | OneUnit b => OneUnit (u b)
  end.

Definition on_defender (u : BattleBall -> BattleBall) (f : Fighters) : Fighters :=
  match f with
  | TwoUnits a d => TwoUnits a (u d)
  | OneUnit b => OneUnit (u b)
  end.

(** The tail of [execute]: "Check if defender was knocked out". *)
Definition knock_out_check (f : Fighters) : Fighters :=
  if decide (health (defender_of f) <= 0)
  then on_defender (set_dead true) (on_defender (set_health 0) f)
  else f.

(** [BattleMove.execute(self, attacker, defender)]. *)
Definition execute (self : BattleMove) (f : Fighters) (g : Rng)
    : Event * Fighters * Rng :=
  let '(r0, g) := random.random g in
  if Float.ltb r0 (1 # 10) then
    (mkEvent false (Some 0) (Some 0) (name (attacker_of f) +:+ " missed!")
             (Some false) (Some true), f, g)
  else
    match move_type self with
    | ATTACK =>
        let '(u, g) := random.uniform (8 # 10) (12 # 10) g in
        let damage := Float.int (Float.of_int (attack (attacker_of f)) * u) in
        let '(r1, g) := random.random g in
        let is_crit := Float.ltb r1 (1 # 10) in
        let damage :=
          if is_crit then Float.int (Float.of_int damage * (15 # 10)) else damage in
        let f := on_defender (fun d => set_health (health d - damage) d) f in
        let msg :=
          if is_crit
          then "💥 Critical hit! " +:+ name (attacker_of f) +:+ " dealt "
               +:+ pretty damage +:+ " damage to " +:+ name (defender_of f) +:+ "!"
          else name (attacker_of f) +:+ " dealt " +:+ pretty damage
               +:+ " damage to " +:+ name (defender_of f) +:+ "!" in
        (mkEvent true (Some damage) (Some 0) msg (Some is_crit) (Some false),
         knock_out_check f, g)
    | HEAVY_ATTACK =>
        let '(r1, g) := random.random g in
        if Float.ltb r1 (3 # 10) then
          (mkEvent false (Some 0) (Some 0)
                   (name (attacker_of f) +:+ "'s heavy attack missed!")
                   (Some false) (Some true), f, g)
        else
          let '(u, g) := random.uniform (12 # 10) (18 # 10) g in
          let damage := Float.int (Float.of_int (attack (attacker_of f)) * u) in
          let f := on_defender (fun d => set_health (health d - damage) d) f in
          (mkEvent true (Some damage) (Some 0)
                   ("💪 " +:+ name (attacker_of f) +:+ " landed a heavy attack! "
                    +:+ pretty damage +:+ " damage to " +:+ name (defender_of f)
                    +:+ "!")
                   (Some false) (Some false),
           knock_out_check f, g)
    | DEFEND =>
        let f := on_attacker (set_defending true) f in
        (mkEvent true (Some 0) (Some 0)
                 ("🛡️ " +:+ name (attacker_of f) +:+ " is defending!")
                 (Some false) (Some false),
         knock_out_check f, g)
    | HEAL =>
        let heal_amount :=
          Float.int (Float.of_int (max_health (attacker_of f)) * (2 # 10)) in
        let old_health := health (attacker_of f) in
        let f :=
          on_attacker
            (fun a => set_health (Z.min (health a + heal_amount) (max_health a)) a) f in
        let actual_heal := health (attacker_of f) - old_health in
        (mkEvent true (Some 0) (Some actual_heal)
                 ("💚 " +:+ name (attacker_of f) +:+ " healed for "
                  +:+ pretty actual_heal +:+ " HP!")
                 (Some false) (Some false),
         knock_out_check f, g)
    end.

(** The catalogue [MOVES]. *)
Definition MOVES : gmap string BattleMove :=
  list_to_map
    [ ("attack", mkBattleMove "Quick Attack" ATTACK "A standard attack" "⚔️");
      ("heavy", mkBattleMove "Heavy Strike" HEAVY_ATTACK "Powerful but risky" "💪");
      ("defend", mkBattleMove "Defend" DEFEND "Brace for impact" "🛡️");
      ("heal", mkBattleMove "Recover" HEAL "Restore some HP" "💚") ].

(** ** The match *)

Record TurnAction := mkTurnAction {
  player : string;
  ball_index : Z;
  move : string;
  target_index : Z
}.

(** A team of the match, and the slot of a unit object: the list it sits in
    and its position there. *)
Inductive Side := P1 | P2.

#[global] Instance Side_eq_dec : EqDecision Side.
Proof. solve_decision. Defined.

Definition BallRef : Type := Side * nat.

(** The dictionary [execute_turn] builds.  ["p1_active"] and ["p2_active"]
    hold references to unit objects of the match, not copies: they are kept
    as the slot of the object, read through [deref]. *)
Record TurnResult := mkTurnResult {
  turn : Z;
  events : list Event;
  p1_active : option BallRef;
  p2_active : option BallRef
}.

Definition add_event (e : Event) (t : TurnResult) : TurnResult :=
  mkTurnResult (turn t) (events t ++ [e]) (p1_active t) (p2_active t).

(** [winner] is declared [str] and is assigned whatever [get_winner()]
    returns, so it holds a string or [None]. *)
Record BattleInstance := mkBattleInstance {
  p1_name : string;
  p2_name : string;
  p1_balls : list BattleBall;
  p2_balls : list BattleBall;
  p1_active_index : nat;
  p2_active_index : nat;
  current_turn : Z;
  turn_history : list TurnResult;
  winner : option string;
  p1_ready : bool;
  p2_ready : bool
}.

(** [BattleInstance(p1_name=..., p2_name=..., p1_balls=..., p2_balls=...)]
    with the defaults of the other fields. *)
Definition new_BattleInstance (p1_name p2_name : string)
    (p1_balls p2_balls : list BattleBall) : BattleInstance :=
  mkBattleInstance p1_name p2_name p1_balls p2_balls 0 0 0 [] (Some "") false false.

Definition set_p1_balls (v : list BattleBall) (s : BattleInstance) : BattleInstance :=
  mkBattleInstance (p1_name s) (p2_name s) v (p2_balls s) (p1_active_index s)
    (p2_active_index s) (current_turn s) (turn_history s) (winner s)
    (p1_ready s) (p2_ready s).

Definition set_p2_balls (v : list BattleBall) (s : BattleInstance) : BattleInstance :=
  mkBattleInstance (p1_name s) (p2_name s) (p1_balls s) v (p1_active_index s)
    (p2_active_index s) (current_turn s) (turn_history s) (winner s)
    (p1_ready s) (p2_ready s).

Definition set_p1_active_index (v : nat) (s : BattleInstance) : BattleInstance :=
  mkBattleInstance (p1_name s) (p2_name s) (p1_balls s) (p2_balls s) v
    (p2_active_index s) (current_turn s) (turn_history s) (winner s)
    (p1_ready s) (p2_ready s).

Definition set_p2_active_index (v : nat) (s : BattleInstance) : BattleInstance :=
  mkBattleInstance (p1_name s) (p2_name s) (p1_balls s) (p2_balls s)
    (p1_active_index s) v (current_turn s) (turn_history s) (winner s)
    (p1_ready s) (p2_ready s).

Definition set_current_turn (v : Z) (s : BattleInstance) : BattleInstance :=
  mkBattleInstance (p1_name s) (p2_name s) (p1_balls s) (p2_balls s)
    (p1_active_index s) (p2_active_index s) v (turn_history s) (winner s)
    (p1_ready s) (p2_ready s).

Definition set_turn_history (v : list TurnResult) (s : BattleInstance) : BattleInstance :=
  mkBattleInstance (p1_name s) (p2_name s) (p1_balls s) (p2_balls s)
    (p1_active_index s) (p2_active_index s) (current_turn s) v (winner s)
    (p1_ready s) (p2_ready s).

Definition set_winner (v : option string) (s : BattleInstance) : BattleInstance :=
  mkBattleInstance (p1_name s) (p2_name s) (p1_balls s) (p2_balls s)
    (p1_active_index s) (p2_active_index s) (current_turn s) (turn_history s) v
    (p1_ready s) (p2_ready s).

(** The team a player name selects: every method compares the name with
    [p1_name] and takes the second team otherwise. *)
Definition side_of (self : BattleInstance) (player : string) : Side :=
  if decide (player = p1_name self) then P1 else P2.

Definition balls (sd : Side) (self : BattleInstance) : list BattleBall :=
  match sd with P1 => p1_balls self | P2 => p2_balls self end.

Definition active_index (sd : Side) (self : BattleInstance) : nat :=
  match sd with P1 => p1_active_index self | P2 => p2_active_index self end.

Definition set_balls (sd : Side) (v : list BattleBall) (self : BattleInstance)
    : BattleInstance :=
  match sd with P1 => set_p1_balls v self | P2 => set_p2_balls v self end.

Definition deref (self : BattleInstance) (r : BallRef) : option BattleBall :=
  balls r.1 self !! r.2.

(** [get_active_ball]: the unit object, [None] when the index is out of
    range. *)
Definition get_active_ball (self : BattleInstance) (player : string)
    : option BattleBall :=
  if decide (player = p1_name self) then
    if decide (p1_active_index self < length (p1_balls self))%nat
    then p1_balls self !! p1_active_index self
    else None
  else
    if decide (p2_active_index self < length (p2_balls self))%nat
    then p2_balls self !! p2_active_index self
    else None.

(** The slot of the object [get_active_ball] returns. *)
Definition active_ref (self : BattleInstance) (player : string) : BallRef :=
  (side_of self player, active_index (side_of self player) self).

(** The loop of [get_next_alive_ball_index], over [balls[i:]]. *)
Fixpoint first_alive_from (i : nat) (rest : list BattleBall) : option nat :=
  match rest with
  | [] => None
  | ball :: rest' => if negb (dead ball) then Some i else first_alive_from (S i) rest'
  end.

Definition get_next_alive_ball_index (self : BattleInstance) (player : string)
    : option nat :=
  let balls := if decide (player = p1_name self) then p1_balls self else p2_balls self in
  let current_index :=
    if decide (player = p1_name self) then p1_active_index self
    else p2_active_index self in
  first_alive_from (current_index + 1) (drop (current_index + 1) balls).

Definition switch_to_next_ball (self : BattleInstance) (player : string)
    : bool * BattleInstance :=
  match get_next_alive_ball_index self player with
  | None => (false, self)
  | Some next_index =>
      if decide (player = p1_name self)
      then (true, set_p1_active_index next_index self)
      else (true, set_p2_active_index next_index self)
  end.

(** [any(not ball.dead for ball in balls)]. *)
Definition any_alive (bs : list BattleBall) : bool :=
  existsb (fun ball => negb (dead ball)) bs.

Definition is_battle_over (self : BattleInstance) : bool :=
  let p1_alive := any_alive (p1_balls self) in
  let p2_alive := any_alive (p2_balls self) in
  negb (p1_alive && p2_alive).

Definition get_winner (self : BattleInstance) : option string :=
  let p1_alive := any_alive (p1_balls self) in
  let p2_alive := any_alive (p2_balls self) in
  if negb p1_alive && negb p2_alive then Some "Draw"
  else if negb p1_alive then Some (p2_name self)
  else if negb p2_alive then Some (p1_name self)
  else None.

(** The other player of an action:
    [self.p2_name if player == self.p1_name else self.p1_name]. *)
Definition opponent_of (self : BattleInstance) (player : string) : string :=
  if decide (player = p1_name self) then p2_name self else p1_name self.

(** The units an action works on, as [execute] receives them, and their
    write-back into the lists of the match. *)
Definition fighters (ra rd : BallRef) (attacker defender : BattleBall) : Fighters :=
  if decide (ra = rd) then OneUnit attacker else TwoUnits attacker defender.

Definition store (r : BallRef) (b : BattleBall) (self : BattleInstance)
    : BattleInstance :=
  set_balls r.1 (<[r.2 := b]> (balls r.1 self)) self.

Definition store_fighters (ra rd : BallRef) (f : Fighters) (self : BattleInstance)
    : BattleInstance :=
  store rd (defender_of f) (store ra (attacker_of f) self).

Definition error_event (m : string) : Event :=
  mkEvent false None None m None None.

Definition is_offensive (mv : BattleMove) : bool :=
  bool_decide (move_type mv = ATTACK) || bool_decide (move_type mv = HEAVY_ATTACK).

(** The body of [if result.get("damage"):] in the defend branch. *)
Definition reduce_by_defend (result : Event) (f : Fighters) : Event * Fighters :=
  match damage result with
  | Some original_damage =>
      if decide (original_damage = 0) then (result, f)
      else
        let reduced := Float.int (Float.of_int original_damage * (5 # 10)) in
        (set_message (message result +:+ " (Reduced by defend!)")
                     (set_damage reduced result),
         on_defender (fun d => set_health (health d + (original_damage - reduced)) d) f)
  | None => (result, f)
  end.

Definition newline : string := String (Ascii.ascii_of_nat 10) "".

(** [BattleInstance._execute_single_action(self, player, action)]. *)
Definition _execute_single_action (self : BattleInstance) (player : string)
    (action : TurnAction) (g : Rng) : Event * BattleInstance * Rng :=
  let opponent := opponent_of self player in
  match get_active_ball self player, get_active_ball self opponent with
  | Some attacker, Some defender =>
      match MOVES !! move action with
      | None => (error_event "Error: Invalid move", self, g)
      | Some mv =>
          let ra := active_ref self player in
          let rd := active_ref self opponent in
          let f := fighters ra rd attacker defender in
          let '(result, f, g) :=
            if defending (defender_of f) && is_offensive mv then
              let '(result, f, g) := execute mv f g in
              let '(result, f) := reduce_by_defend result f in
              (result, on_defender (set_defending false) f, g)
            else
              let '(result, f, g) := execute mv f g in
              (result,
               if defending (defender_of f)
               then on_defender (set_defending false) f else f,
               g) in
          let self := store_fighters ra rd f self in
          if dead (defender_of f) then
            let result :=
              set_message (message result +:+ " 💀 " +:+ name (defender_of f)
                           +:+ " was knocked out!") result in
            let '(switched, self) := switch_to_next_ball self opponent in
            if switched then
              match get_active_ball self opponent with
              | Some next_ball =>
                  (set_message (message result +:+ newline +:+ "🔄 "
                                +:+ name next_ball +:+ " enters the battle!") result,
                   self, g)
              | None => (result, self, g)
              end
            else (result, self, g)
          else (result, self, g)
      end
  | _, _ => (error_event "Error: Ball not found", self, g)
  end.

(** The reference stored under ["p1_active"] / ["p2_active"]. *)
Definition active_snapshot (self : BattleInstance) (player : string)
    : option BallRef :=
  match get_active_ball self player with
  | Some _ => Some (active_ref self player)
  | None => None
  end.

(** "Determine order": who acts first, who second. *)
Definition turn_order (self : BattleInstance) (p1_ball p2_ball : BattleBall)
    (p1_action p2_action : TurnAction) (g : Rng)
    : (string * TurnAction) * (string * TurnAction) * Rng :=
  if decide (attack p1_ball > attack p2_ball) then
    ((p1_name self, p1_action), (p2_name self, p2_action), g)
  else if decide (attack p2_ball > attack p1_ball) then
    ((p2_name self, p2_action), (p1_name self, p1_action), g)
  else
    let '(r, g) := random.random g in
    if Float.ltb r (5 # 10)
    then ((p1_name self, p1_action), (p2_name self, p2_action), g)
    else ((p2_name self, p2_action), (p1_name self, p1_action), g).

(** [BattleInstance.execute_turn(self, p1_action, p2_action)]: the returned
    dictionary, the match and the random source afterwards. *)
Definition execute_turn (self : BattleInstance) (p1_action p2_action : TurnAction)
    (g : Rng) : TurnResult * BattleInstance * Rng :=
  let self := set_current_turn (current_turn self + 1) self in
  let turn_result :=
    mkTurnResult (current_turn self) []
      (active_snapshot self (p1_name self)) (active_snapshot self (p2_name self)) in
  match get_active_ball self (p1_name self), get_active_ball self (p2_name self) with
  | Some p1_ball, Some p2_ball =>
      let '(first, second, g) :=
        turn_order self p1_ball p2_ball p1_action p2_action g in
      let '(result1, self, g) := _execute_single_action self first.1 first.2 g in
      let turn_result := add_event result1 turn_result in
      if is_battle_over self then
        (turn_result, set_winner (get_winner self) self, g)
      else
        let '(turn_result, self, g) :=
          match get_active_ball self second.1 with
          | Some second_ball =>
              if negb (dead second_ball) then
                let '(result2, self, g) :=
                  _execute_single_action self second.1 second.2 g in
                (add_event result2 turn_result, self, g)
              else (turn_result, self, g)
          | None => (turn_result, self, g)
          end in
        let self :=
          if is_battle_over self then set_winner (get_winner self) self else self in
        (turn_result, set_turn_history (turn_history self ++ [turn_result]) self, g)
  | _, _ => (turn_result, self, g)
  end.

(** ** Building a match from database instances *)

(** The database objects [create_battle_from_instances] reads are defined
    outside this package; these records have the attributes it uses.
    [emoji_id] is [None] when the attribute is absent ([hasattr] is false). *)
Module Db.

Record Ball := mkBall {
  country : string;
  emoji_id : option string
}.

Record BallInstance := mkBallInstance {
  ball : Ball;
  health : Z;
  attack : Z
}.

End Db.

Inductive Raised := ValueError (msg : string).

Definition battle_ball_of (owner : string) (ball : Db.BallInstance) : BattleBall :=
  new_BattleBall (Db.country (Db.ball ball)) owner (Db.health ball) (Db.attack ball)
    (Db.health ball)
    (match Db.emoji_id (Db.ball ball) with Some e => e | None => "" end)
    false false.

Definition create_battle_from_instances (p1_name p2_name : string)
    (p1_ball_instances p2_ball_instances : list Db.BallInstance)
    : Raised + BattleInstance :=
  if decide (length p1_ball_instances ≠ 5%nat ∨ length p2_ball_instances ≠ 5%nat)
  then inl (ValueError "Each player must have exactly 5 balls!")
  else
    inr (new_BattleInstance p1_name p2_name
           (map (battle_ball_of p1_name) p1_ball_instances)
           (map (battle_ball_of p2_name) p2_ball_instances)).

(** Successive calls of [execute_turn], one per pair of chosen moves, with
    the dictionaries they return.  The battle loop of the cog calls
    [execute_turn] this way while [is_battle_over()] is false; [play] itself
    makes every call of the list. *)
Fixpoint play (self : BattleInstance) (rounds : list (TurnAction * TurnAction))
    (g : Rng) : list TurnResult * BattleInstance * Rng :=
  match rounds with
  | [] => ([], self, g)
  | (p1_action, p2_action) :: rest =>
      let '(turn_result, self, g) := execute_turn self p1_action p2_action g in
      let '(results, self, g) := play self rest g in
      (turn_result :: results, self, g)
  end.

(** ** Predicates on units and matches *)

(** The health invariant of the specification, for one unit and for every
    unit of a match. *)
Definition unit_ok (b : BattleBall) : bool :=
  (0 <=? health b)%Z && (health b <=? max_health b)%Z
  && Bool.eqb (dead b) (health b =? 0)%Z.

Definition match_ok (self : BattleInstance) : bool :=
  forallb unit_ok (p1_balls self) && forallb unit_ok (p2_balls self).

(** [faints f f']: from [f] to [f'] the attacker's fainted flag is kept when
    it is a unit of its own, and the defender's flag is never reset. *)
Definition faints (f f' : Fighters) : Prop :=
  match f, f' with
  | TwoUnits a d, TwoUnits a' d' =>
      dead a' = dead a ∧ (dead d = true → dead d' = true)
  | OneUnit b, OneUnit b' => dead b = true → dead b' = true
  | _, _ => False
  end.

(** No unit of [bs] that has fainted is alive again in [bs']. *)
Definition fainted_le (bs bs' : list BattleBall) : Prop :=
  Forall2 (fun b b' => dead b = true → dead b' = true) bs bs'.

(** What an action with defending team [D] may change in a match: unit
    fields and active indices only, no fainted flag is reset, and the flags
    of the other team stay as they are. *)
Definition action_effect (D : Side) (s s' : BattleInstance) : Prop :=
  p1_name s' = p1_name s ∧ p2_name s' = p2_name s
  ∧ current_turn s' = current_turn s ∧ turn_history s' = turn_history s
  ∧ winner s' = winner s
  ∧ (∀ sd, fainted_le (balls sd s) (balls sd s'))
  ∧ (∀ sd, sd ≠ D → dead <$> balls sd s' = dead <$> balls sd s).

(** The middle of [_execute_single_action]: [execute] and the bookkeeping of
    the defender's [defending] flag, on the two units of the action. *)
Definition resolve (mv : BattleMove) (f : Fighters) (g : Rng)
    : Event * Fighters * Rng :=
  if defending (defender_of f) && is_offensive mv then
    let '(result, f, g) := execute mv f g in
    let '(result, f) := reduce_by_defend result f in
    (result, on_defender (set_defending false) f, g)
  else
    let '(result, f, g) := execute mv f g in
    (result,
     if defending (defender_of f) then on_defender (set_defending false) f else f,
     g).

(** The fields of a unit that no method assigns. *)
Definition same_stats (b b' : BattleBall) : Prop :=
  name b' = name b ∧ owner b' = owner b ∧ attack b' = attack b
  ∧ max_health b' = max_health b ∧ emoji b' = emoji b.

(** One unit before and after some engine code: its fixed fields are kept
    and a fainted unit stays fainted. *)
Definition unit_step (b b' : BattleBall) : Prop :=
  same_stats b b' ∧ (dead b = true → dead b' = true).

Definition team_step (bs bs' : list BattleBall) : Prop :=
  Forall2 unit_step bs bs'.

(** [evolves f f']: what [execute] and the defend branch may do to the two
    units of an action. *)
Definition evolves (f f' : Fighters) : Prop :=
  match f, f' with
  | TwoUnits a d, TwoUnits a' d' =>
      unit_step a a' ∧ dead a' = dead a ∧ unit_step d d'
  | OneUnit b, OneUnit b' => unit_step b b'
  | _, _ => False
  end.

(** The part of a match the actions work on: names, teams, active indices. *)
Definition same_board (s s' : BattleInstance) : Prop :=
  p1_name s' = p1_name s ∧ p2_name s' = p2_name s
  ∧ p1_balls s' = p1_balls s ∧ p2_balls s' = p2_balls s
  ∧ p1_active_index s' = p1_active_index s
  ∧ p2_active_index s' = p2_active_index s.

(** The active unit of team [sd] exists, every unit before it has fainted,
    and it has fainted itself only when the whole team has. *)
Definition team_ok (sd : Side) (s : BattleInstance) : Prop :=
  (active_index sd s < length (balls sd s))%nat
  ∧ (∀ j b, (j < active_index sd s)%nat → balls sd s !! j = Some b →
       dead b = true)
  ∧ (∀ b, balls sd s !! active_index sd s = Some b → dead b = true →
       any_alive (balls sd s) = false).

(** The recorded rounds carry strictly increasing turn numbers, none above
    the turn counter. *)
Fixpoint increasing (ts : list Z) : Prop :=
  match ts with
  | [] => True
  | t :: rest => Forall (fun t' => t < t') rest ∧ increasing rest
  end.

Definition history_ok (s : BattleInstance) : Prop :=
  increasing (turn <$> turn_history s)
  ∧ Forall (fun t => t <= current_turn s) (turn <$> turn_history s).

(** Successive calls of [execute_turn] as [play] makes them, but each one
    made only while [is_battle_over()] is false: the calls stop at the first
    match that is over.  Nothing else touches the match between the calls. *)
Fixpoint play_while_running (self : BattleInstance)
    (rounds : list (TurnAction * TurnAction)) (g : Rng) : BattleInstance * Rng :=
  match rounds with
  | [] => (self, g)
  | (p1_action, p2_action) :: rest =>
      if is_battle_over self then (self, g)
      else
        let '(_, self, g) := execute_turn self p1_action p2_action g in
        play_while_running self rest g
  end.

(** ** Concrete matches

    Freshly built three-unit teams, as the battle command sets them up, and a
    random source whose every draw is [0.5]: no move misses, no hit is
    critical, [uniform(0.8, 1.2)] is [1.0], and a tie in attack lets the
    second player act first. *)

Module Scenario.

Definition steady : Rng := mkRng (fun _ => 1 # 2)%Q 0.

(** [BattleBall(name=..., owner=..., health=..., attack=...,
    max_health=health, emoji="")], as the battle command builds a unit. *)
Definition fresh_unit (name owner : string) (health attack : Z) : BattleBall :=
  new_BattleBall name owner health attack health "" false false.

(** [TurnAction(player, 0, move)], as the battle loop builds its actions. *)
Definition choose (player move : string) : TurnAction :=
  mkTurnAction player 0 move 0.

Definition both_attack : TurnAction * TurnAction :=
  (choose "Alice" "attack", choose "Bob" "attack").

Definition alice_heals_bob_attacks : TurnAction * TurnAction :=
  (choose "Alice" "heal", choose "Bob" "attack").

(** Bob's first unit is faster and has [hp] health; Alice's units have
    attack 40. *)
Definition guarded_match (hp : Z) : BattleInstance :=
  new_BattleInstance "Alice" "Bob"
    [ fresh_unit "A1" "Alice" 100 40; fresh_unit "A2" "Alice" 100 40;
      fresh_unit "A3" "Alice" 100 40 ]
    [ fresh_unit "B1" "Bob" hp 50; fresh_unit "B2" "Bob" 100 50;
      fresh_unit "B3" "Bob" 100 50 ].

(** Every unit falls to one hit; Alice's units are the faster ones. *)
Definition glass_match : BattleInstance :=
  new_BattleInstance "Alice" "Bob"
    [ fresh_unit "A1" "Alice" 10 60; fresh_unit "A2" "Alice" 10 60;
      fresh_unit "A3" "Alice" 10 60 ]
    [ fresh_unit "B1" "Bob" 10 50; fresh_unit "B2" "Bob" 10 50;
      fresh_unit "B3" "Bob" 10 50 ].

(** Teams of three database instances, as the battle command selects them. *)
Definition db_team : list Db.BallInstance :=
  [ Db.mkBallInstance (Db.mkBall "France" None) 100 50;
    Db.mkBallInstance (Db.mkBall "Spain" None) 90 60;
    Db.mkBallInstance (Db.mkBall "Italy" None) 80 70 ].

End Scenario.

(** ** Properties of units and fighters *)

Lemma faints_refl f : faints f f.
Proof. destruct f; simpl; auto. Qed.

Lemma faints_trans f1 f2 f3 : faints f1 f2 → faints f2 f3 → faints f1 f3.
Proof.
  destruct f1, f2, f3; simpl; try tauto.
  intros [H1 H2] [H3 H4]. split; [congruence | auto].
Qed.

Lemma faints_on_attacker u f :
  (∀ b, dead (u b) = dead b) → faints f (on_attacker u f).
Proof. intros Hu. destruct f; simpl; [split; auto | intros; rewrite Hu; auto]. Qed.

Lemma faints_on_defender u f :
  (∀ b, dead b = true → dead (u b) = true) → faints f (on_defender u f).
Proof. intros Hu. destruct f; simpl; auto. Qed.

Lemma faints_knock_out_check f : faints f (knock_out_check f).
Proof.
  unfold knock_out_check. case_decide; [| apply faints_refl].
  destruct f; simpl; auto.
Qed.

Ltac faints_step :=
  first
    [ apply faints_refl
    | apply faints_knock_out_check
    | apply faints_on_attacker; intros; reflexivity
    | apply faints_on_defender; intros; simpl; assumption ].

Lemma execute_faints self f g :
  faints f (execute self f g).1.2.
Proof.
  unfold execute. simpl.
  destruct (Float.ltb _ _); simpl; [apply faints_refl |].
  destruct (move_type self); simpl.
  - eapply faints_trans; [| apply faints_knock_out_check]. faints_step.
  - destruct (Float.ltb _ _); simpl; [apply faints_refl |].
    eapply faints_trans; [| apply faints_knock_out_check]. faints_step.
  - eapply faints_trans; [| apply faints_knock_out_check]. faints_step.
  - eapply faints_trans; [| apply faints_knock_out_check]. faints_step.
Qed.

Lemma reduce_by_defend_faints result f :
  faints f (reduce_by_defend result f).2.
Proof.
  unfold reduce_by_defend. destruct (damage result); simpl; [| faints_step].
  case_decide; simpl; faints_step.
Qed.

(** ** Properties of single actions on a match *)

Lemma fainted_le_refl bs : fainted_le bs bs.
Proof. apply Forall_Forall2_diag, Forall_forall. auto. Qed.

Lemma fainted_le_trans bs1 bs2 bs3 :
  fainted_le bs1 bs2 → fainted_le bs2 bs3 → fainted_le bs1 bs3.
Proof.
  unfold fainted_le. intros H12. revert bs3.
  induction H12; intros bs3 H23; inversion H23; subst; constructor; auto.
Qed.

Lemma fainted_le_insert (bs : list BattleBall) (i : nat) b0 b :
  bs !! i = Some b0 → (dead b0 = true → dead b = true) →
  fainted_le bs (<[i := b]> bs).
Proof.
  intros Hi Hb. unfold fainted_le.
  rewrite <- (list_insert_id bs i b0 Hi) at 1.
  apply Forall2_insert; [apply fainted_le_refl | exact Hb].
Qed.

Lemma dead_insert (bs : list BattleBall) (i : nat) b0 b :
  bs !! i = Some b0 → dead b = dead b0 →
  dead <$> <[i := b]> bs = dead <$> bs.
Proof.
  intros Hi Hb. rewrite list_fmap_insert, Hb.
  apply list_insert_id. rewrite list_lookup_fmap, Hi. reflexivity.
Qed.

Lemma any_alive_fmap (bs bs' : list BattleBall) :
  dead <$> bs' = dead <$> bs → any_alive bs' = any_alive bs.
Proof.
  revert bs'. induction bs as [| b bs IH]; intros [| b' bs'] H; simpl in *;
    try discriminate; [reflexivity |].
  injection H as Hb Hbs. rewrite Hb. f_equal. auto.
Qed.

Lemma any_alive_fainted_le bs bs' :
  fainted_le bs bs' → any_alive bs' = true → any_alive bs = true.
Proof.
  induction 1 as [| b b' bs bs' Hb _ IH]; simpl; [auto |].
  rewrite !orb_true_iff, !negb_true_iff. intros [Hd | Hr]; [left | right; auto].
  destruct (dead b); [rewrite Hb in Hd; auto | reflexivity].
Qed.

Lemma balls_store sd r b s :
  balls sd (store r b s)
  = if decide (sd = r.1) then <[r.2 := b]> (balls sd s) else balls sd s.
Proof. destruct r as [[] i], sd; reflexivity. Qed.

Lemma get_active_ball_deref self player b :
  get_active_ball self player = Some b →
  deref self (active_ref self player) = Some b.
Proof.
  unfold get_active_ball, deref, active_ref, side_of.
  repeat case_decide; simpl; congruence.
Qed.

Lemma action_effect_refl D s : action_effect D s s.
Proof. repeat split; auto using fainted_le_refl. Qed.

Lemma action_effect_trans D s1 s2 s3 :
  action_effect D s1 s2 → action_effect D s2 s3 → action_effect D s1 s3.
Proof.
  intros (?&?&?&?&?&H6&H7) (?&?&?&?&?&H6'&H7').
  repeat split; try congruence.
  - intros sd. eapply fainted_le_trans; eauto.
  - intros sd Hsd. rewrite H7', H7; auto.
Qed.

Lemma store_fighters_effect self ra rd a d f' :
  deref self ra = Some a → deref self rd = Some d →
  (ra.1 = rd.1 → ra = rd) →
  faints (fighters ra rd a d) f' →
  action_effect rd.1 self (store_fighters ra rd f' self).
Proof.
  intros Ha Hd Hside Hf. unfold deref in *.
  assert (Hfields : ∀ r1 r2 b1 b2 (s := store r1 b1 (store r2 b2 self)),
    p1_name s = p1_name self ∧ p2_name s = p2_name self
    ∧ current_turn s = current_turn self ∧ turn_history s = turn_history self
    ∧ winner s = winner self)
    by (intros [[] ?] [[] ?] ? ?; repeat split).
  destruct (Hfields rd ra (defender_of f') (attacker_of f')) as (?&?&?&?&?).
  unfold action_effect, store_fighters. repeat split; try assumption.
  - intros sd. rewrite !balls_store.
    unfold fighters in Hf. destruct (decide (ra = rd)) as [-> | Hne].
    + destruct f' as [| b']; [contradiction | simpl in *].
      case_decide; [subst sd | apply fainted_le_refl].
      rewrite list_insert_insert_eq. eapply fainted_le_insert; [exact Ha | exact Hf].
    + destruct f' as [a' d' |]; [simpl in * | contradiction].
      destruct Hf as [Hfa Hfd].
      destruct (decide (sd = rd.1)) as [-> |].
      * destruct (decide (rd.1 = ra.1)) as [E |]; [symmetry in E; tauto |].
        eapply fainted_le_insert; [exact Hd | exact Hfd].
      * case_decide; [subst sd | apply fainted_le_refl].
        eapply fainted_le_insert; [exact Ha | congruence].
  - intros sd Hsd. rewrite !balls_store.
    destruct (decide (sd = rd.1)); [contradiction |].
    case_decide; [subst sd | reflexivity].
    unfold fighters in Hf. destruct (decide (ra = rd)) as [-> | Hne]; [tauto |].
    destruct f' as [a' d' |]; [simpl in * | contradiction].
    eapply dead_insert; [exact Ha | tauto].
Qed.

Lemma switch_to_next_ball_effect D self player :
  action_effect D self (switch_to_next_ball self player).2.
Proof.
  unfold switch_to_next_ball.
  destruct (get_next_alive_ball_index self player); [| apply action_effect_refl].
  case_decide; simpl; unfold action_effect; simpl;
    repeat split; auto; intros []; apply fainted_le_refl.
Qed.

Lemma active_ref_same_side self p q :
  (active_ref self p).1 = (active_ref self q).1 → active_ref self p = active_ref self q.
Proof. unfold active_ref. simpl. intros ->. reflexivity. Qed.

(** An action never revives a unit, and only the opposing team of the acting
    player can lose one. *)
Lemma single_action_effect self player action g :
  action_effect (side_of self (opponent_of self player)) self
    (_execute_single_action self player action g).1.2.
Proof.
  unfold _execute_single_action.
  destruct (get_active_ball self player) as [a |] eqn:Ha;
    [| apply action_effect_refl].
  destruct (get_active_ball self (opponent_of self player)) as [d |] eqn:Hd;
    [| apply action_effect_refl].
  destruct (MOVES !! move action) as [mv |]; [| apply action_effect_refl].
  set (ra := active_ref self player).
  set (rd := active_ref self (opponent_of self player)).
  set (f := fighters ra rd a d).
  destruct (if defending (defender_of f) && is_offensive mv then _ else _)
    as [[result f'] g'] eqn:HX.
  assert (Hf : faints f f').
  { pose proof (execute_faints mv f g) as He.
    destruct (execute mv f g) as [[r1 f1] g1]. simpl in He.
    destruct (defending (defender_of f) && is_offensive mv).
    - pose proof (reduce_by_defend_faints r1 f1) as Hr.
      destruct (reduce_by_defend r1 f1) as [r2 f2]. simpl in Hr.
      injection HX as <- <- <-.
      eapply faints_trans; [exact He |].
      eapply faints_trans; [exact Hr |]. faints_step.
    - injection HX as <- <- <-.
      eapply faints_trans; [exact He |].
      destruct (defending (defender_of f1)); faints_step. }
  assert (Hstore : action_effect rd.1 self (store_fighters ra rd f' self)).
  { apply (store_fighters_effect self ra rd a d f').
    - apply get_active_ball_deref, Ha.
    - apply get_active_ball_deref, Hd.
    - apply active_ref_same_side.
    - exact Hf. }
  change (side_of self (opponent_of self player)) with rd.1.
  destruct (dead (defender_of f')); [| exact Hstore].
  pose proof (switch_to_next_ball_effect rd.1 (store_fighters ra rd f' self)
                (opponent_of self player)) as Hsw.
  destruct (switch_to_next_ball _ _) as [switched self1]. simpl in Hsw.
  assert (action_effect rd.1 self self1)
    by (eapply action_effect_trans; eauto).
  destruct switched; [| assumption].
  destruct (get_active_ball self1 _); assumption.
Qed.

Lemma action_effect_alive D s s' sd :
  action_effect D s s' →
  any_alive (balls sd s') = true → any_alive (balls sd s) = true.
Proof.
  intros (_&_&_&_&_&Hle&_). apply any_alive_fainted_le, Hle.
Qed.

Lemma action_effect_other D s s' sd :
  action_effect D s s' → sd ≠ D →
  any_alive (balls sd s') = any_alive (balls sd s).
Proof.
  intros (_&_&_&_&_&_&Heq) Hsd. apply any_alive_fmap, Heq, Hsd.
Qed.

Lemma is_battle_over_sides s :
  is_battle_over s = negb (any_alive (balls P1 s) && any_alive (balls P2 s)).
Proof. reflexivity. Qed.

(** Once a team has no living unit, no action brings the match back. *)
Lemma action_effect_over D s s' :
  action_effect D s s' → is_battle_over s = true → is_battle_over s' = true.
Proof.
  intros He. rewrite !is_battle_over_sides, !negb_true_iff, !andb_false_iff.
  pose proof (action_effect_alive D s s' P1 He) as H1.
  pose proof (action_effect_alive D s s' P2 He) as H2.
  destruct (any_alive (balls P1 s')), (any_alive (balls P2 s')); auto.
  rewrite H1, H2 by reflexivity. tauto.
Qed.

(** The team that does not defend in an action keeps its living units, so an
    action on a running match leaves a team with a living unit. *)
Lemma action_effect_survivor D s s' :
  action_effect D s s' → is_battle_over s = false →
  (any_alive (p1_balls s') || any_alive (p2_balls s')) = true.
Proof.
  intros He. rewrite is_battle_over_sides, negb_false_iff, andb_true_iff.
  intros [H1 H2]. apply orb_true_iff.
  destruct D.
  - right. change (any_alive (balls P2 s') = true).
    rewrite (action_effect_other P1 s s' P2 He); [exact H2 | discriminate].
  - left. change (any_alive (balls P1 s') = true).
    rewrite (action_effect_other P2 s s' P1 He); [exact H1 | discriminate].
Qed.


Lemma get_active_ball_turn v self player :
  get_active_ball (set_current_turn v self) player = get_active_ball self player.
Proof. reflexivity. Qed.

Lemma is_battle_over_turn v self :
  is_battle_over (set_current_turn v self) = is_battle_over self.
Proof. reflexivity. Qed.


Lemma is_battle_over_get_winner self :
  is_battle_over self = true ↔ get_winner self ≠ None.
Proof.
  unfold is_battle_over, get_winner.
  destruct (any_alive (p1_balls self)), (any_alive (p2_balls self)); simpl;
    split; congruence.
Qed.

Lemma get_winner_survivor s :
  is_battle_over s = true →
  (any_alive (p1_balls s) || any_alive (p2_balls s)) = true →
  get_winner s = Some (if any_alive (p1_balls s) then p1_name s else p2_name s).
Proof.
  unfold is_battle_over, get_winner.
  destruct (any_alive (p1_balls s)), (any_alive (p2_balls s)); simpl;
    congruence.
Qed.


(** ** The search for the next unit *)

Lemma first_alive_from_Some i rest n :
  first_alive_from i rest = Some n ↔
  ∃ k b, n = (i + k)%nat ∧ rest !! k = Some b ∧ dead b = false
         ∧ ∀ j b', (j < k)%nat → rest !! j = Some b' → dead b' = true.
Proof.
  revert i. induction rest as [| x rest IH]; intros i; simpl.
  - split; [discriminate | intros (k & b & _ & Hk & _); discriminate].
  - destruct (dead x) eqn:Hx; simpl.
    + rewrite IH. split.
      * intros (k & b & -> & Hk & Hb & Hlt). exists (S k), b.
        repeat split; [lia | exact Hk | exact Hb |].
        intros [| j] b' Hj Hl; simpl in Hl; [congruence |].
        apply (Hlt j); [lia | exact Hl].
      * intros ([| k] & b & -> & Hk & Hb & Hlt); simpl in Hk; [congruence |].
        exists k, b. repeat split; [lia | exact Hk | exact Hb |].
        intros j b' Hj Hl. apply (Hlt (S j)); [lia | exact Hl].
    + split.
      * intros [= <-]. exists 0%nat, x. repeat split; [lia | exact Hx |].
        intros j b' Hj. lia.
      * intros ([| k] & b & -> & Hk & Hb & Hlt); [f_equal; lia |].
        specialize (Hlt 0%nat x ltac:(lia) eq_refl). congruence.
Qed.

Lemma first_alive_after (bs : list BattleBall) (c n : nat) :
  first_alive_from (c + 1) (drop (c + 1) bs) = Some n ↔
  (c < n)%nat
  ∧ (∃ b, bs !! n = Some b ∧ dead b = false)
  ∧ ∀ j b, (c < j < n)%nat → bs !! j = Some b → dead b = true.
Proof.
  rewrite first_alive_from_Some. split.
  - intros (k & b & -> & Hk & Hb & Hlt). rewrite lookup_drop in Hk.
    repeat split; [lia | exists b; split; [exact Hk | exact Hb] |].
    intros j b' Hj Hl. apply (Hlt (j - (c + 1))%nat); [lia |].
    rewrite lookup_drop, <- Hl. f_equal. lia.
  - intros (Hn & (b & Hb & Hd) & Hlt). exists (n - (c + 1))%nat, b.
    repeat split; [lia | rewrite lookup_drop, <- Hb; f_equal; lia | exact Hd |].
    intros j b' Hj Hl. rewrite lookup_drop in Hl.
    eapply Hlt; [| exact Hl]. lia.
Qed.

(** [get_next_alive_ball_index] returns the first position after the active
    one whose unit has not fainted: the search only moves forward. *)
Lemma get_next_alive_ball_index_Some self player n :
  let team := balls (side_of self player) self in
  let current_index := active_index (side_of self player) self in
  get_next_alive_ball_index self player = Some n ↔
  (current_index < n)%nat
  ∧ (∃ b, team !! n = Some b ∧ dead b = false)
  ∧ ∀ j b, (current_index < j < n)%nat → team !! j = Some b → dead b = true.
Proof.
  unfold get_next_alive_ball_index, side_of.
  destruct (decide (player = p1_name self)); simpl; apply first_alive_after.
Qed.

(** ** The claims of the specification *)

Import Scenario.


(** C10.  A [BattleBall] built with [max_health] omitted (the default, 0) or
    given as 0 leaves [__post_init__] with [max_health] equal to its initial
    [health], which is unchanged: the fresh unit has health = max_health. *)
Theorem post_init_sets_max_health n o (h a : Z) e (dd df : bool) :
  let omitted := new_BattleBall n o h a default_max_health e dd df in
  let zero := new_BattleBall n o h a 0 e dd df in
  (max_health omitted = h ∧ health omitted = h)
  ∧ (max_health zero = h ∧ health zero = h)
  ∧ health omitted = max_health omitted.
Proof.
  unfold new_BattleBall, post_init, default_max_health. simpl.
  repeat split.
Qed.

(** C6, as amended.  [create_battle_from_instances] builds a match exactly
    when each of the two teams has exactly 5 units, and raises [ValueError]
    (no match is built) when either team has another number of units. *)
Theorem create_battle_needs_five_units n1 n2 (l1 l2 : list Db.BallInstance) :
  ((∃ battle, create_battle_from_instances n1 n2 l1 l2 = inr battle)
   ↔ length l1 = 5%nat ∧ length l2 = 5%nat)
  ∧ (create_battle_from_instances n1 n2 l1 l2
       = inl (ValueError "Each player must have exactly 5 balls!")
     ↔ length l1 ≠ 5%nat ∨ length l2 ≠ 5%nat)
  ∧ ∀ battle, create_battle_from_instances n1 n2 l1 l2 = inr battle →
      length (p1_balls battle) = 5%nat ∧ length (p2_balls battle) = 5%nat.
Proof.
  unfold create_battle_from_instances.
  destruct (decide (length l1 ≠ 5%nat ∨ length l2 ≠ 5%nat)) as [Hbad | Hok].
  - split; [| split].
    + split; [intros [battle Hb]; discriminate | tauto].
    + tauto.
    + intros battle Hb. discriminate.
  - assert (length l1 = 5%nat ∧ length l2 = 5%nat) as [H1 H2]
      by (destruct (decide (length l1 = 5%nat)), (decide (length l2 = 5%nat)); tauto).
    split; [| split].
    + split; [tauto | eauto].
    + split; [discriminate | tauto].
    + intros battle [= <-]. simpl. rewrite !length_map. tauto.
Qed.

(** C6, the claim as stated fails: two teams of exactly 3 units do not give a
    match, the helper raises [ValueError]. *)
Lemma three_unit_teams_are_rejected :
  length db_team = 3%nat
  ∧ create_battle_from_instances "Alice" "Bob" db_team db_team
    = inl (ValueError "Each player must have exactly 5 balls!").
Proof. split; reflexivity. Qed.

(** C8.  [execute] first draws the universal miss roll, whatever the kind of
    the move: below 0.1 it returns a miss event with no damage and no heal,
    leaves both units as they were and makes no further draw.  Otherwise a
    heavy attack, and only a heavy attack, draws a second roll and misses in
    the same way below 0.3; every other execution is not a miss. *)
Theorem universal_miss_roll_comes_first (self : BattleMove) (f : Fighters) (g : Rng) :
  let '(result, f', g') := execute self f g in
  if Float.ltb (peek g) (1 # 10) then
    miss result = Some true ∧ success result = false
    ∧ damage result = Some 0 ∧ heal result = Some 0
    ∧ f' = f ∧ g' = advance g
  else if bool_decide (move_type self = HEAVY_ATTACK)
          && Float.ltb (peek (advance g)) (3 # 10) then
    miss result = Some true ∧ success result = false
    ∧ damage result = Some 0 ∧ heal result = Some 0
    ∧ f' = f ∧ g' = advance (advance g)
  else
    miss result = Some false ∧ success result = true.
Proof.
  unfold execute, peek, advance. simpl.
  destruct (Float.ltb (tape g (cursor g)) (1 # 10)); [repeat split |].
  destruct (move_type self); simpl; try (repeat split; fail).
  destruct (Float.ltb (tape g (S (cursor g))) (3 # 10)); repeat split.
Qed.

(** C3, as amended.  Once [is_battle_over()] is true it stays true through
    every further [execute_turn], and [get_winner()] keeps reporting an
    outcome; but [execute_turn] has no check for a finished match and does
    not fail on one: it counts the turn and, when both teams have an active
    unit, still resolves the first action of the round, the one
    [_execute_single_action] call for the first player of the turn order,
    and assigns [get_winner()] of the match that call leaves to [winner],
    then returns with that single event, without a second action and
    without recording the round.  Without an active unit on some team it
    only counts the turn. *)
Theorem execute_turn_on_finished_match self p1_action p2_action g :
  is_battle_over self = true →
  let s0 := set_current_turn (current_turn self + 1) self in
  let '(turn_result, self', g') := execute_turn self p1_action p2_action g in
  is_battle_over self' = true
  ∧ get_winner self' ≠ None
  ∧ current_turn self' = current_turn self + 1
  ∧ turn turn_result = current_turn self + 1
  ∧ turn_history self' = turn_history self
  ∧ match get_active_ball self (p1_name self),
          get_active_ball self (p2_name self) with
    | Some p1_ball, Some p2_ball =>
        let '(first, second, g1) :=
          turn_order s0 p1_ball p2_ball p1_action p2_action g in
        let '(result1, s1, g2) :=
          _execute_single_action s0 first.1 first.2 g1 in
        events turn_result = [result1]
        ∧ self' = set_winner (get_winner s1) s1
        ∧ g' = g2
        ∧ length (events turn_result) = 1%nat
        ∧ winner self' = get_winner self'
    | _, _ =>
        events turn_result = []
        ∧ self' = s0
        ∧ g' = g
        ∧ winner self' = winner self
    end.
Proof.
  intros Hover s0. unfold execute_turn. fold s0.
  change (p1_name s0) with (p1_name self).
  change (p2_name s0) with (p2_name self).
  change (get_active_ball s0) with (get_active_ball self).
  assert (Hnone : is_battle_over s0 = true ∧ get_winner s0 ≠ None
                  ∧ current_turn s0 = current_turn self + 1
                  ∧ current_turn s0 = current_turn self + 1
                  ∧ turn_history s0 = turn_history self).
  { repeat split; [exact Hover |].
    apply is_battle_over_get_winner. exact Hover. }
  destruct (get_active_ball self (p1_name self)) as [p1_ball |];
    [| simpl; repeat split; tauto].
  destruct (get_active_ball self (p2_name self)) as [p2_ball |];
    [| simpl; repeat split; tauto].
  destruct (turn_order s0 p1_ball p2_ball p1_action p2_action g)
    as [[first second] g1].
  pose proof (single_action_effect s0 first.1 first.2 g1) as He.
  destruct (_execute_single_action s0 first.1 first.2 g1) as [[result1 s1] g2].
  simpl in He.
  assert (Hover1 : is_battle_over s1 = true)
    by (eapply action_effect_over; [exact He | exact Hover]).
  rewrite Hover1. simpl.
  destruct He as (_ & _ & Hturn & Hhist & _).
  repeat split; try assumption.
  apply is_battle_over_get_winner. exact Hover1.
Qed.

(** C3, the amended statement at a match Bob has won after three rounds. *)
Lemma execute_turn_on_finished_match_witness :
  let played :=
    play glass_match [both_attack; both_attack; alice_heals_bob_attacks] steady in
  let self := played.1.2 in
  let g := played.2 in
  let p1_action := both_attack.1 in
  let p2_action := both_attack.2 in
  is_battle_over self = true
  ∧ let s0 := set_current_turn (current_turn self + 1) self in
    let '(turn_result, self', g') := execute_turn self p1_action p2_action g in
    is_battle_over self' = true
    ∧ get_winner self' ≠ None
    ∧ current_turn self' = current_turn self + 1
    ∧ turn turn_result = current_turn self + 1
    ∧ turn_history self' = turn_history self
    ∧ match get_active_ball self (p1_name self),
            get_active_ball self (p2_name self) with
      | Some p1_ball, Some p2_ball =>
          let '(first, second, g1) :=
            turn_order s0 p1_ball p2_ball p1_action p2_action g in
          let '(result1, s1, g2) :=
            _execute_single_action s0 first.1 first.2 g1 in
          events turn_result = [result1]
          ∧ self' = set_winner (get_winner s1) s1
          ∧ g' = g2
          ∧ length (events turn_result) = 1%nat
          ∧ winner self' = get_winner self'
      | _, _ =>
          events turn_result = []
          ∧ self' = s0
          ∧ g' = g
          ∧ winner self' = winner self
      end.
Proof.
  intros played self g p1_action p2_action.
  split; [vm_compute; reflexivity |].
  apply (execute_turn_on_finished_match self p1_action p2_action g).
  vm_compute. reflexivity.
Defined.

(** C3, the claim as stated fails.  Bob has won after three rounds (Alice's
    three units have fainted).  A fourth [execute_turn] does not fail: the
    fainted unit of Alice, the faster one, knocks out Bob's last unit, and
    the recorded winner changes from Bob to Draw. *)
Lemma finished_match_still_resolves_a_round :
  let '(_, s3, g3) :=
    play glass_match [both_attack; both_attack; alice_heals_bob_attacks] steady in
  let '(turn_result, s4, _) := execute_turn s3 both_attack.1 both_attack.2 g3 in
  is_battle_over s3 = true ∧ winner s3 = Some "Bob"
  ∧ current_turn s3 = 3 ∧ current_turn s4 = 4
  ∧ length (events turn_result) = 1%nat
  ∧ (dead <$> p2_balls s3) = [true; true; false]
  ∧ (dead <$> p2_balls s4) = [true; true; true]
  ∧ winner s4 = Some "Draw" ∧ winner s4 ≠ winner s3.
Proof. vm_compute. repeat split; discriminate. Qed.




(** C1.  The code breaks the health invariant.  Bob's unit (health 10 of 10)
    defends, then takes a normal attack of 40: [execute] subtracts the full
    damage and marks the unit fainted at health 0, and the defend branch of
    [_execute_single_action] then adds the reduced half back.  The unit ends
    fainted with health 20, above its max_health 10, in a match whose units
    all satisfied the invariant before the round. *)
Theorem defended_knockout_breaks_health_invariant :
  let self := guarded_match 10 in
  let '(_, self', _) :=
    execute_turn self (choose "Alice" "attack") (choose "Bob" "defend") steady in
  match_ok self = true
  ∧ match_ok self' = false
  ∧ (unit_ok <$> p2_balls self') = [false; true; true]
  ∧ (health <$> p2_balls self') = [20; 100; 100]
  ∧ (max_health <$> p2_balls self') = [10; 100; 100]
  ∧ (dead <$> p2_balls self') = [true; false; false].
Proof. vm_compute. repeat split. Qed.

(** C7.  The code misses the halving when the full damage is lethal.  Bob's
    unit (health 30) defends and is hit by a normal attack of 40 at
    multiplier 1.0: halved damage 20 would leave it at health 10, the code
    leaves it fainted at health 20 and sends in the next unit; the flag
    [defending] is cleared.  With health 100 the same hit takes exactly 20. *)
Theorem defended_lethal_hit_is_not_halved :
  let attacked hp :=
    (execute_turn (guarded_match hp) (choose "Alice" "attack")
       (choose "Bob" "defend") steady).1.2 in
  ((health <$> p2_balls (attacked 30)) = [20; 100; 100]
   ∧ (dead <$> p2_balls (attacked 30)) = [true; false; false]
   ∧ (defending <$> p2_balls (attacked 30)) = [false; false; false]
   ∧ p2_active_index (attacked 30) = 1%nat)
  ∧ ((health <$> p2_balls (attacked 100)) = [80; 100; 100]
     ∧ (dead <$> p2_balls (attacked 100)) = [false; false; false]
     ∧ (defending <$> p2_balls (attacked 100)) = [false; false; false]
     ∧ p2_active_index (attacked 100) = 0%nat).
Proof. vm_compute. repeat split. Qed.

(** C2.  The code lets the entering unit act at once.  Alice's unit knocks
    out Bob's first unit; Bob's second unit enters and, in the same round,
    resolves Bob's action: the round has two events, the second one is the
    attack of the unit that has just entered, and it knocks out Alice's
    unit. *)
Theorem entering_unit_acts_in_the_same_round :
  let '(turn_result, self', _) :=
    execute_turn glass_match both_attack.1 both_attack.2 steady in
  p2_active_index glass_match = 0%nat
  ∧ p2_active turn_result = Some (P2, 0%nat)
  ∧ p2_active_index self' = 1%nat
  ∧ (String.prefix "A1 dealt 60 damage to B1!" <$> (message <$> events turn_result))
    = [true; false]
  ∧ (String.prefix "B2 dealt 50 damage to A1!" <$> (message <$> events turn_result))
    = [false; true]
  ∧ (dead <$> p1_balls self') = [true; false; false]
  ∧ (dead <$> p2_balls self') = [true; false; false].
Proof. vm_compute. repeat split. Qed.

(** C5.  The code does not record a round that ends the match on its first
    action.  Three rounds are resolved and returned; the third ends the match
    on Alice's action and returns before the append, so the history holds the
    first two rounds only while the turn counter is 3. *)
Theorem round_ending_on_first_action_is_not_recorded :
  let '(results, self', _) :=
    play glass_match [both_attack; both_attack; both_attack] steady in
  (turn <$> results) = [1; 2; 3]
  ∧ (length <$> (events <$> results)) = [2; 2; 1]%nat
  ∧ current_turn self' = 3
  ∧ winner self' = Some "Alice"
  ∧ (turn <$> turn_history self') = [1; 2]
  ∧ turn_history self' = take 2 results.
Proof. vm_compute. repeat split. Qed.

(** ** Further properties of the engine *)

(** *** What an action does to units *)

Lemma same_stats_refl b : same_stats b b.
Proof. repeat split. Qed.

Lemma unit_step_refl b : unit_step b b.
Proof. split; [apply same_stats_refl | auto]. Qed.

Lemma unit_step_trans b1 b2 b3 : unit_step b1 b2 → unit_step b2 b3 → unit_step b1 b3.
Proof.
  intros [(Ha1&Ha2&Ha3&Ha4&Ha5) H1] [(Hb1&Hb2&Hb3&Hb4&Hb5) H2].
  split; [repeat split; congruence | auto].
Qed.

Lemma evolves_refl f : evolves f f.
Proof. destruct f; simpl; auto using unit_step_refl. Qed.

Lemma evolves_trans f1 f2 f3 : evolves f1 f2 → evolves f2 f3 → evolves f1 f3.
Proof.
  destruct f1, f2, f3; simpl; try tauto.
  - intros (Ha & Hd & Hdef) (Ha' & Hd' & Hdef').
    split; [| split]; [eapply unit_step_trans; eauto | congruence
                      | eapply unit_step_trans; eauto].
  - apply unit_step_trans.
Qed.

Lemma evolves_on_attacker u f :
  (∀ b, same_stats b (u b) ∧ dead (u b) = dead b) → evolves f (on_attacker u f).
Proof.
  intros Hu. destruct f as [a d | b]; simpl.
  - destruct (Hu a) as [Hs Hd]. split; [| split].
    + split; [exact Hs | congruence].
    + exact Hd.
    + apply unit_step_refl.
  - destruct (Hu b) as [Hs Hd]. split; [exact Hs | congruence].
Qed.

Lemma evolves_on_defender u f :
  (∀ b, unit_step b (u b)) → evolves f (on_defender u f).
Proof.
  intros Hu. destruct f as [a d | b]; simpl; auto using unit_step_refl.
Qed.

Lemma evolves_knock_out_check f : evolves f (knock_out_check f).
Proof.
  unfold knock_out_check. case_decide; [| apply evolves_refl].
  eapply evolves_trans; apply evolves_on_defender; intros b;
    (split; [repeat split | simpl; auto]).
Qed.

Ltac evolves_step :=
  first
    [ apply evolves_refl
    | apply evolves_knock_out_check
    | apply evolves_on_attacker; intros; split; [repeat split | reflexivity]
    | apply evolves_on_defender; intros; split; [repeat split | simpl; auto] ].

Lemma execute_evolves self f g : evolves f (execute self f g).1.2.
Proof.
  unfold execute. simpl.
  destruct (Float.ltb _ _); simpl; [apply evolves_refl |].
  destruct (move_type self); simpl.
  - eapply evolves_trans; [| apply evolves_knock_out_check]. evolves_step.
  - destruct (Float.ltb _ _); simpl; [apply evolves_refl |].
    eapply evolves_trans; [| apply evolves_knock_out_check]. evolves_step.
  - eapply evolves_trans; [| apply evolves_knock_out_check]. evolves_step.
  - eapply evolves_trans; [| apply evolves_knock_out_check]. evolves_step.
Qed.

Lemma reduce_by_defend_evolves result f : evolves f (reduce_by_defend result f).2.
Proof.
  unfold reduce_by_defend. destruct (damage result); simpl; [| evolves_step].
  case_decide; simpl; evolves_step.
Qed.

Lemma evolves_faints f f' : evolves f f' → faints f f'.
Proof.
  destruct f, f'; simpl; try tauto.
  - intros ([_ Ha] & Hd & [_ Hdef]). auto.
  - intros [_ Hb]. exact Hb.
Qed.

Lemma resolve_evolves mv f g : evolves f (resolve mv f g).1.2.
Proof.
  unfold resolve.
  pose proof (execute_evolves mv f g) as He.
  destruct (execute mv f g) as [[r1 f1] g1]. simpl in He.
  destruct (defending (defender_of f) && is_offensive mv).
  - pose proof (reduce_by_defend_evolves r1 f1) as Hr.
    destruct (reduce_by_defend r1 f1) as [r2 f2]. simpl in *.
    eapply evolves_trans; [exact He |].
    eapply evolves_trans; [exact Hr |]. evolves_step.
  - simpl. eapply evolves_trans; [exact He |].
    destruct (defending (defender_of f1)); evolves_step.
Qed.

Lemma defending_on_defender_clear f :
  defending (defender_of (on_defender (set_defending false) f)) = false.
Proof. destruct f; reflexivity. Qed.

Lemma resolve_clears_defending mv f g :
  defending (defender_of (resolve mv f g).1.2) = false.
Proof.
  unfold resolve. destruct (execute mv f g) as [[r1 f1] g1].
  destruct (defending (defender_of f) && is_offensive mv).
  - destruct (reduce_by_defend r1 f1) as [r2 f2]. simpl.
    apply defending_on_defender_clear.
  - simpl. destruct (defending (defender_of f1)) eqn:Hd;
      [apply defending_on_defender_clear | exact Hd].
Qed.

(** The two ways an action ends: an error event with nothing touched, or the
    resolved units written back and, after a knock-out, the switch. *)
Lemma single_action_shape self player action g :
  let opponent := opponent_of self player in
  let ra := active_ref self player in
  let rd := active_ref self opponent in
  let '(r, s', g') := _execute_single_action self player action g in
  (s' = self ∧ g' = g ∧ success r = false ∧ damage r = None
   ∧ (get_active_ball self player = None
      ∨ get_active_ball self opponent = None
      ∨ MOVES !! move action = None))
  ∨ ∃ a d mv result f',
      get_active_ball self player = Some a
      ∧ get_active_ball self opponent = Some d
      ∧ MOVES !! move action = Some mv
      ∧ resolve mv (fighters ra rd a d) g = (result, f', g')
      ∧ success r = success result ∧ damage r = damage result
      ∧ heal r = heal result ∧ miss r = miss result ∧ crit r = crit result
      ∧ s' = if dead (defender_of f')
             then (switch_to_next_ball (store_fighters ra rd f' self) opponent).2
             else store_fighters ra rd f' self.
Proof.
  intros opponent ra rd. unfold _execute_single_action.
  fold opponent. fold ra. fold rd.
  destruct (get_active_ball self player) as [a |] eqn:Ha;
    [| left; repeat split; auto].
  destruct (get_active_ball self opponent) as [d |] eqn:Hd;
    [| left; repeat split; auto].
  destruct (MOVES !! move action) as [mv |] eqn:Hm;
    [| left; repeat split; auto].
  change (if defending (defender_of (fighters ra rd a d)) && is_offensive mv
          then _ else _) with (resolve mv (fighters ra rd a d) g).
  destruct (resolve mv (fighters ra rd a d) g) as [[result f'] g'] eqn:Hres.
  destruct (dead (defender_of f')) eqn:Hdead.
  - destruct (switch_to_next_ball (store_fighters ra rd f' self) opponent)
      as [switched s2] eqn:Hsw.
    destruct switched.
    + destruct (get_active_ball s2 opponent);
        right; exists a, d, mv, result, f'; rewrite Hdead, Hsw;
        repeat split; exact Hres.
    + right. exists a, d, mv, result, f'. rewrite Hdead, Hsw.
      repeat split; exact Hres.
  - right. exists a, d, mv, result, f'. rewrite Hdead. repeat split; exact Hres.
Qed.

(** *** Writing units back, and the switch *)

Lemma team_step_refl bs : team_step bs bs.
Proof. apply Forall_Forall2_diag, Forall_forall. intros. apply unit_step_refl. Qed.

Lemma team_step_trans bs1 bs2 bs3 :
  team_step bs1 bs2 → team_step bs2 bs3 → team_step bs1 bs3.
Proof.
  unfold team_step. intros H12. revert bs3.
  induction H12; intros bs3 H23; inversion H23; subst; constructor;
    eauto using unit_step_trans.
Qed.

Lemma team_step_insert (bs : list BattleBall) (i : nat) b0 b :
  bs !! i = Some b0 → unit_step b0 b → team_step bs (<[i := b]> bs).
Proof.
  intros Hi Hb. unfold team_step.
  rewrite <- (list_insert_id bs i b0 Hi) at 1.
  apply Forall2_insert; [apply team_step_refl | exact Hb].
Qed.

Lemma team_step_lookup bs bs' (j : nat) b' :
  team_step bs bs' → bs' !! j = Some b' →
  ∃ b, bs !! j = Some b ∧ unit_step b b'.
Proof.
  intros Hs Hj. unfold team_step in Hs.
  destruct (Forall2_lookup_r _ _ _ _ _ Hs Hj) as (b & Hb & Hstep). eauto.
Qed.

Lemma store_fields r b s :
  p1_name (store r b s) = p1_name s ∧ p2_name (store r b s) = p2_name s
  ∧ p1_active_index (store r b s) = p1_active_index s
  ∧ p2_active_index (store r b s) = p2_active_index s
  ∧ current_turn (store r b s) = current_turn s
  ∧ turn_history (store r b s) = turn_history s
  ∧ winner (store r b s) = winner s.
Proof. destruct r as [[] i]; repeat split. Qed.

Lemma store_fighters_fields ra rd f s :
  let s1 := store_fighters ra rd f s in
  p1_name s1 = p1_name s ∧ p2_name s1 = p2_name s
  ∧ p1_active_index s1 = p1_active_index s
  ∧ p2_active_index s1 = p2_active_index s
  ∧ current_turn s1 = current_turn s
  ∧ turn_history s1 = turn_history s
  ∧ winner s1 = winner s.
Proof. destruct ra as [[] i], rd as [[] j]; repeat split. Qed.

Lemma store_fighters_team_step self ra rd a d f' :
  deref self ra = Some a → deref self rd = Some d →
  (ra.1 = rd.1 → ra = rd) →
  evolves (fighters ra rd a d) f' →
  ∀ sd, team_step (balls sd self) (balls sd (store_fighters ra rd f' self)).
Proof.
  intros Ha Hd Hside Hf sd. unfold deref in *. unfold store_fighters.
  rewrite !balls_store. unfold fighters in Hf.
  destruct (decide (ra = rd)) as [-> | Hne].
  - destruct f' as [| b']; [contradiction | simpl in *].
    case_decide; [subst sd | apply team_step_refl].
    rewrite list_insert_insert_eq. eapply team_step_insert; [exact Ha | exact Hf].
  - destruct f' as [a' d' |]; [simpl in * | contradiction].
    destruct Hf as (Hfa & _ & Hfd).
    destruct (decide (sd = rd.1)) as [-> |].
    + destruct (decide (rd.1 = ra.1)) as [E |]; [symmetry in E; tauto |].
      eapply team_step_insert; [exact Hd | exact Hfd].
    + case_decide; [subst sd | apply team_step_refl].
      eapply team_step_insert; [exact Ha | exact Hfa].
Qed.

Lemma store_fighters_other_slots self ra rd f' sd (j : nat) :
  (sd, j) ≠ ra → (sd, j) ≠ rd →
  balls sd (store_fighters ra rd f' self) !! j = balls sd self !! j.
Proof.
  intros Hra Hrd. unfold store_fighters. rewrite !balls_store.
  destruct ra as [sa ia], rd as [sdd id]. simpl.
  repeat case_decide; subst;
    rewrite ?list_lookup_insert_ne by congruence; reflexivity.
Qed.

Lemma store_fighters_defender self ra rd f' d :
  deref self rd = Some d →
  deref (store_fighters ra rd f' self) rd = Some (defender_of f').
Proof.
  unfold deref, store_fighters. intros Hd. rewrite !balls_store.
  rewrite decide_True by reflexivity.
  apply list_lookup_insert_eq.
  apply lookup_lt_Some in Hd.
  case_decide; [rewrite length_insert |]; exact Hd.
Qed.

Lemma first_alive_from_None i rest :
  first_alive_from i rest = None ↔ ∀ b, b ∈ rest → dead b = true.
Proof.
  revert i. induction rest as [| x rest IH]; intros i; simpl.
  - split; [intros _ b Hb; inversion Hb | reflexivity].
  - destruct (dead x) eqn:Hx; simpl.
    + rewrite IH. split.
      * intros H b Hb. apply elem_of_cons in Hb as [-> | Hb]; auto.
      * intros H b Hb. apply H. apply elem_of_cons. auto.
    + split; [discriminate |].
      intros H. specialize (H x). rewrite elem_of_cons in H.
      specialize (H (or_introl eq_refl)). congruence.
Qed.

Lemma first_alive_after_None (bs : list BattleBall) (c : nat) :
  first_alive_from (c + 1) (drop (c + 1) bs) = None ↔
  ∀ j b, (c < j)%nat → bs !! j = Some b → dead b = true.
Proof.
  rewrite first_alive_from_None. split.
  - intros H j b Hj Hb. apply H. apply list_elem_of_lookup.
    exists (j - (c + 1))%nat. rewrite lookup_drop, <- Hb. f_equal. lia.
  - intros H b Hb. apply list_elem_of_lookup in Hb as [k Hk].
    rewrite lookup_drop in Hk. eapply H; [| exact Hk]. lia.
Qed.

Lemma get_next_alive_ball_index_None self player :
  get_next_alive_ball_index self player = None ↔
  ∀ j b, (active_index (side_of self player) self < j)%nat →
         balls (side_of self player) self !! j = Some b → dead b = true.
Proof.
  unfold get_next_alive_ball_index, side_of.
  destruct (decide (player = p1_name self)); simpl; apply first_alive_after_None.
Qed.

(** The switch only moves the active index of the player's team. *)
Lemma switch_to_next_ball_board self player :
  let s' := (switch_to_next_ball self player).2 in
  p1_name s' = p1_name self ∧ p2_name s' = p2_name self
  ∧ (∀ sd, balls sd s' = balls sd self)
  ∧ (∀ sd, sd ≠ side_of self player → active_index sd s' = active_index sd self)
  ∧ active_index (side_of self player) s'
    = match get_next_alive_ball_index self player with
      | Some n => n
      | None => active_index (side_of self player) self
      end.
Proof.
  unfold switch_to_next_ball, side_of.
  destruct (get_next_alive_ball_index self player) as [n |]; simpl.
  - destruct (decide (player = p1_name self)); simpl;
      repeat split; intros []; simpl; congruence.
  - repeat split; intros []; reflexivity.
Qed.

(** *** Teams through an action *)

Lemma any_alive_false (bs : list BattleBall) :
  any_alive bs = false ↔ ∀ (j : nat) b, bs !! j = Some b → dead b = true.
Proof.
  induction bs as [| x bs IH]; simpl.
  - split; [intros _ j b Hj; discriminate | reflexivity].
  - rewrite orb_false_iff, negb_false_iff, IH. split.
    + intros [Hx Hr] [| j] b Hj; simpl in Hj; [congruence | eauto].
    + intros H. split; [apply (H 0%nat x eq_refl) |].
      intros j b Hj. apply (H (S j) b Hj).
Qed.

Lemma team_ok_dead_ext sd s s' :
  active_index sd s' = active_index sd s →
  dead <$> balls sd s' = dead <$> balls sd s →
  team_ok sd s → team_ok sd s'.
Proof.
  intros Hi Hd (Hlen & Hbefore & Hactive).
  assert (Hlook : ∀ (j : nat) b', balls sd s' !! j = Some b' →
            ∃ b, balls sd s !! j = Some b ∧ dead b = dead b').
  { intros j b' Hj.
    assert (Hf : (dead <$> balls sd s) !! j = Some (dead b'))
      by (rewrite <- Hd, list_lookup_fmap, Hj; reflexivity).
    rewrite list_lookup_fmap in Hf.
    destruct (balls sd s !! j) as [b |]; [| discriminate].
    exists b. split; [reflexivity | simpl in Hf; congruence]. }
  unfold team_ok. rewrite Hi. split; [| split].
  - rewrite <- (length_fmap dead), Hd, length_fmap. exact Hlen.
  - intros j b' Hj Hb'. destruct (Hlook j b' Hb') as (b & Hb & <-). eauto.
  - intros b' Hb' Hdead. rewrite (any_alive_fmap _ _ Hd).
    destruct (Hlook _ b' Hb') as (b & Hb & Heq). apply (Hactive b Hb). congruence.
Qed.

Lemma side_of_names s s' player :
  p1_name s' = p1_name s → side_of s' player = side_of s player.
Proof. unfold side_of. intros ->. reflexivity. Qed.

Lemma active_ref_slot self player sd (j : nat) :
  j ≠ active_index sd self → (sd, j) ≠ active_ref self player.
Proof. unfold active_ref. intros Hj [= -> ->]. contradiction. Qed.

(** An action keeps the fixed fields of every unit, the size of both teams
    and every fainted flag that is set. *)
Lemma single_action_team_step self player action g sd :
  team_step (balls sd self)
            (balls sd (_execute_single_action self player action g).1.2).
Proof.
  pose proof (single_action_shape self player action g) as Hs.
  destruct (_execute_single_action self player action g) as [[r s'] g'].
  simpl in *.
  destruct Hs as [(-> & _) | (a & d & mv & result & f' & Ha & Hd & _ & Hres & _ &
                               _ & _ & _ & _ & ->)]; [apply team_step_refl |].
  pose proof (resolve_evolves mv
    (fighters (active_ref self player)
       (active_ref self (opponent_of self player)) a d) g) as Hev.
  rewrite Hres in Hev. simpl in Hev.
  pose proof (store_fighters_team_step self _ _ a d f'
    (get_active_ball_deref _ _ _ Ha) (get_active_ball_deref _ _ _ Hd)
    (active_ref_same_side _ _ _) Hev sd) as Hst.
  destruct (dead (defender_of f')); [| exact Hst].
  destruct (switch_to_next_ball_board
    (store_fighters (active_ref self player)
       (active_ref self (opponent_of self player)) f' self)
    (opponent_of self player)) as (_ & _ & Hb & _).
  rewrite Hb. exact Hst.
Qed.

(** An action keeps the names of the players. *)
Lemma single_action_names self player action g :
  let s' := (_execute_single_action self player action g).1.2 in
  p1_name s' = p1_name self ∧ p2_name s' = p2_name self.
Proof.
  destruct (single_action_effect self player action g) as (H1 & H2 & _).
  split; assumption.
Qed.

(** An action keeps the teams in order: active unit in range, fainted units
    behind it, and a fainted active unit only on a team without living
    units. *)
Lemma single_action_team_ok self player action g sd :
  team_ok sd self →
  team_ok sd (_execute_single_action self player action g).1.2.
Proof.
  intros Hok.
  pose proof (single_action_shape self player action g) as Hs.
  pose proof (single_action_effect self player action g) as Heff.
  destruct (_execute_single_action self player action g) as [[r s'] g'].
  simpl in *.
  destruct Hs as [(-> & _) | (a & d & mv & result & f' & Ha & Hd & _ & Hres & _ &
                               _ & _ & _ & _ & Hs')]; [exact Hok |].
  set (opponent := opponent_of self player) in *.
  set (ra := active_ref self player) in *.
  set (rd := active_ref self opponent) in *.
  set (s1 := store_fighters ra rd f' self) in *.
  pose proof (resolve_evolves mv (fighters ra rd a d) g) as Hev.
  rewrite Hres in Hev. simpl in Hev.
  destruct (store_fighters_fields ra rd f' self) as (Hn1 & Hn2 & Hi1 & Hi2 & _).
  fold s1 in Hn1, Hn2, Hi1, Hi2.
  assert (Hidx1 : ∀ sd', active_index sd' s1 = active_index sd' self)
    by (intros []; assumption).
  assert (Hside : side_of s1 opponent = rd.1)
    by (apply side_of_names; exact Hn1).
  destruct (switch_to_next_ball_board s1 opponent) as (_ & _ & Hsb & Hso & Hsi).
  rewrite Hside in Hso, Hsi.
  assert (Hballs : balls sd s' = balls sd s1)
    by (rewrite Hs'; destruct (dead (defender_of f')); [apply Hsb | reflexivity]).
  destruct (decide (sd = rd.1)) as [-> | Hsd].
  - (* the defending team *)
    pose proof (store_fighters_team_step self ra rd a d f'
      (get_active_ball_deref _ _ _ Ha) (get_active_ball_deref _ _ _ Hd)
      (active_ref_same_side _ _ _) Hev rd.1) as Hst.
    fold s1 in Hst.
    pose proof (store_fighters_defender self ra rd f' d
      (get_active_ball_deref _ _ _ Hd)) as Hdef.
    fold s1 in Hdef. unfold deref in Hdef.
    change rd.2 with (active_index rd.1 self) in Hdef.
    destruct Hok as (Hlen & Hbefore & Hactive).
    assert (Hlen1 : length (balls rd.1 s1) = length (balls rd.1 self))
      by (symmetry; apply (Forall2_length _ _ _ Hst)).
    assert (Hbefore1 : ∀ (j : nat) b, (j < active_index rd.1 self)%nat →
              balls rd.1 s1 !! j = Some b → dead b = true).
    { intros j b Hj Hb. apply (Hbefore j b Hj). rewrite <- Hb. symmetry.
      apply store_fighters_other_slots; apply active_ref_slot; lia. }
    unfold team_ok. rewrite Hballs.
    destruct (dead (defender_of f')) eqn:Hdead.
    + (* the active unit has fainted: the switch *)
      assert (Hi' : active_index rd.1 s'
                = match get_next_alive_ball_index s1 opponent with
                  | Some n => n
                  | None => active_index rd.1 s1
                  end) by (rewrite Hs'; exact Hsi).
      destruct (get_next_alive_ball_index s1 opponent) as [n |] eqn:Hnext.
      * apply get_next_alive_ball_index_Some in Hnext.
        rewrite Hside, Hidx1 in Hnext.
        destruct Hnext as (Hlt & (bn & Hbn & Halive) & Hbetween).
        rewrite Hi'. split; [| split].
        -- apply lookup_lt_Some in Hbn. exact Hbn.
        -- intros j b Hj Hb.
           destruct (decide (j < active_index rd.1 self)%nat);
             [eapply Hbefore1; eauto |].
           destruct (decide (j = active_index rd.1 self)) as [-> |];
             [congruence |].
           eapply Hbetween; [| exact Hb]. lia.
        -- intros b Hb Hdb. congruence.
      * pose proof (proj1 (get_next_alive_ball_index_None s1 opponent) Hnext)
          as Hnone. clear Hnext. rename Hnone into Hnext.
        rewrite Hside, Hidx1 in Hnext.
        rewrite Hi', Hidx1. split; [| split].
        -- rewrite Hlen1. exact Hlen.
        -- exact Hbefore1.
        -- intros _ _ _. apply any_alive_false. intros j b Hb.
           destruct (decide (j < active_index rd.1 self)%nat);
             [eapply Hbefore1; eauto |].
           destruct (decide (j = active_index rd.1 self)) as [-> |];
             [congruence |].
           eapply Hnext; [| exact Hb]. lia.
    + subst s'. rewrite Hidx1. split; [| split].
      * rewrite Hlen1. exact Hlen.
      * exact Hbefore1.
      * intros b Hb Hdb. congruence.
  - (* the other team: its fainted flags and index are untouched *)
    apply (team_ok_dead_ext sd self s'); [| | exact Hok].
    + rewrite Hs'. destruct (dead (defender_of f'));
        [rewrite (Hso sd Hsd) |]; apply Hidx1.
    + destruct Heff as (_ & _ & _ & _ & _ & _ & Hother).
      apply Hother. exact Hsd.
Qed.

(** *** Rounds *)

(** The ways a round ends: no action when a team has no active unit; the
    first action alone when it ends the match; otherwise the first action,
    the second one if the second player's active unit is alive, and the
    record appended to the history. *)
Lemma execute_turn_shape self p1_action p2_action g :
  let s0 := set_current_turn (current_turn self + 1) self in
  let '(tr, s', g') := execute_turn self p1_action p2_action g in
  turn tr = current_turn self + 1
  ∧ (((get_active_ball self (p1_name self) = None
       ∨ get_active_ball self (p2_name self) = None)
      ∧ s' = s0 ∧ events tr = [] ∧ g' = g)
     ∨ ∃ b1 b2 first second g1 r1 s1 g2,
         get_active_ball self (p1_name self) = Some b1
         ∧ get_active_ball self (p2_name self) = Some b2
         ∧ turn_order s0 b1 b2 p1_action p2_action g = (first, second, g1)
         ∧ _execute_single_action s0 first.1 first.2 g1 = (r1, s1, g2)
         ∧ ((is_battle_over s1 = true
             ∧ s' = set_winner (get_winner s1) s1
             ∧ events tr = [r1] ∧ g' = g2)
            ∨ (is_battle_over s1 = false
               ∧ ∃ s2,
                   ((s2 = s1 ∧ events tr = [r1] ∧ g' = g2)
                    ∨ (∃ r2 second_ball,
                         get_active_ball s1 second.1 = Some second_ball
                         ∧ dead second_ball = false
                         ∧ _execute_single_action s1 second.1 second.2 g2
                           = (r2, s2, g')
                         ∧ events tr = [r1; r2]))
                   ∧ s' = set_turn_history (turn_history s2 ++ [tr])
                            (if is_battle_over s2
                             then set_winner (get_winner s2) s2 else s2)))).
Proof.
  intros s0. unfold execute_turn. fold s0.
  change (p1_name s0) with (p1_name self).
  change (p2_name s0) with (p2_name self).
  change (get_active_ball s0) with (get_active_ball self).
  destruct (get_active_ball self (p1_name self)) as [b1 |] eqn:H1;
    [| simpl; split; [reflexivity | left; auto]].
  destruct (get_active_ball self (p2_name self)) as [b2 |] eqn:H2;
    [| simpl; split; [reflexivity | left; auto]].
  destruct (turn_order s0 b1 b2 p1_action p2_action g)
    as [[first second] g1] eqn:Hord.
  destruct (_execute_single_action s0 first.1 first.2 g1)
    as [[r1 s1] g2] eqn:Hact1.
  destruct (is_battle_over s1) eqn:Hover1.
  - simpl. split; [reflexivity |]. right.
    exists b1, b2, first, second, g1, r1, s1, g2.
    repeat split; auto.
  - destruct (get_active_ball s1 second.1) as [second_ball |] eqn:Hsb.
    + destruct (dead second_ball) eqn:Hdead; simpl.
      * split; [reflexivity |]. right.
        exists b1, b2, first, second, g1, r1, s1, g2.
        repeat split; auto. right. split; [exact Hover1 |].
        exists s1. split; [left; auto | destruct (is_battle_over s1); reflexivity].
      * destruct (_execute_single_action s1 second.1 second.2 g2)
          as [[r2 s2] g3] eqn:Hact2. simpl.
        split; [reflexivity |]. right.
        exists b1, b2, first, second, g1, r1, s1, g2.
        repeat split; auto. right. split; [exact Hover1 |].
        exists s2. split; [| destruct (is_battle_over s2); reflexivity].
        right. exists r2, second_ball. auto.
    + simpl. split; [reflexivity |]. right.
      exists b1, b2, first, second, g1, r1, s1, g2.
      repeat split; auto. right. split; [exact Hover1 |].
      exists s1. split; [left; auto | destruct (is_battle_over s1); reflexivity].
Qed.

Lemma same_board_refl s : same_board s s.
Proof. repeat split. Qed.

Section Rounds.

(** A relation between the match before and after that only looks at the
    board, is transitive, and holds across every single action. *)
Variable P : BattleInstance → BattleInstance → Prop.
Hypothesis P_board : ∀ s s', same_board s s' → P s s'.
Hypothesis P_trans : ∀ s1 s2 s3, P s1 s2 → P s2 s3 → P s1 s3.
Hypothesis P_action :
  ∀ s player action g, P s (_execute_single_action s player action g).1.2.

Lemma execute_turn_keeps self p1_action p2_action g :
  P self (execute_turn self p1_action p2_action g).1.2.
Proof.
  pose proof (execute_turn_shape self p1_action p2_action g) as Hs.
  destruct (execute_turn self p1_action p2_action g) as [[tr s'] g'].
  simpl in *. destruct Hs as [_ Hs].
  set (s0 := set_current_turn (current_turn self + 1) self) in *.
  assert (H0 : P self s0) by (apply P_board; repeat split).
  destruct Hs as [(_ & -> & _) | (b1 & b2 & first & second & g1 & r1 & s1 & g2 &
                                   _ & _ & _ & Hact1 & Hs)]; [exact H0 |].
  assert (H1 : P self s1).
  { eapply P_trans; [exact H0 |].
    pose proof (P_action s0 first.1 first.2 g1) as Ha.
    rewrite Hact1 in Ha. exact Ha. }
  destruct Hs as [(_ & -> & _) | (_ & s2 & Hsecond & ->)].
  - eapply P_trans; [exact H1 |]. apply P_board. repeat split.
  - assert (H2 : P self s2).
    { destruct Hsecond as [(-> & _) | (r2 & sb & _ & _ & Hact2 & _)];
        [exact H1 |].
      eapply P_trans; [exact H1 |].
      pose proof (P_action s1 second.1 second.2 g2) as Ha.
      rewrite Hact2 in Ha. exact Ha. }
    eapply P_trans; [exact H2 |]. apply P_board.
    destruct (is_battle_over s2); repeat split.
Qed.

Lemma play_keeps rounds : ∀ self g, P self (play self rounds g).1.2.
Proof.
  induction rounds as [| [a1 a2] rest IH]; intros self g; simpl.
  - apply P_board, same_board_refl.
  - pose proof (execute_turn_keeps self a1 a2 g) as H1.
    destruct (execute_turn self a1 a2 g) as [[tr s1] g1]. simpl in H1.
    pose proof (IH s1 g1) as H2.
    destruct (play s1 rest g1) as [[results s2] g2]. simpl in *.
    eapply P_trans; eauto.
Qed.

End Rounds.

Lemma execute_turn_counters self p1_action p2_action g :
  let '(tr, s', _) := execute_turn self p1_action p2_action g in
  turn tr = current_turn self + 1
  ∧ current_turn s' = current_turn self + 1
  ∧ (events tr = [] ↔
     get_active_ball self (p1_name self) = None
     ∨ get_active_ball self (p2_name self) = None)
  ∧ (length (events tr) <= 2)%nat
  ∧ (turn_history s' = turn_history self
     ∨ turn_history s' = (turn_history self ++ [tr])%list)
  ∧ (length (events tr) = 2%nat → turn_history s' = (turn_history self ++ [tr])%list).
Proof.
  pose proof (execute_turn_shape self p1_action p2_action g) as Hs.
  destruct (execute_turn self p1_action p2_action g) as [[tr s'] g'].
  simpl in Hs. destruct Hs as [Hturn Hs]. split; [exact Hturn |].
  destruct Hs as [(Hnone & -> & Hev & _) |
                  (b1 & b2 & first & second & g1 & r1 & s1 & g2 &
                   H1 & H2 & _ & Hact1 & Hs)].
  - rewrite Hev. simpl. repeat split; auto; discriminate.
  - pose proof (single_action_effect
                  (set_current_turn (current_turn self + 1) self)
                  first.1 first.2 g1) as He1.
    rewrite Hact1 in He1. simpl in He1.
    destruct He1 as (_ & _ & Ht1 & Hh1 & _).
    change (current_turn (set_current_turn (current_turn self + 1) self))
      with (current_turn self + 1) in Ht1.
    change (turn_history (set_current_turn (current_turn self + 1) self))
      with (turn_history self) in Hh1.
    assert (Hsome : ¬ (get_active_ball self (p1_name self) = None
                       ∨ get_active_ball self (p2_name self) = None))
      by (rewrite H1, H2; intros [? | ?]; discriminate).
    destruct Hs as [(_ & -> & Hev & _) | (_ & s2 & Hsecond & ->)].
    + rewrite Hev. simpl. repeat split; auto; try discriminate; try tauto; lia.
    + assert (Hs2 : current_turn s2 = current_turn self + 1
                    ∧ turn_history s2 = turn_history self
                    ∧ ∃ r2s, events tr = r1 :: r2s ∧ (length r2s <= 1)%nat).
      { destruct Hsecond as [(-> & Hev & _) | (r2 & sb & _ & _ & Hact2 & Hev)].
        - split; [| split]; auto. exists (@nil Event). auto.
        - pose proof (single_action_effect s1 second.1 second.2 g2) as He2.
          rewrite Hact2 in He2. simpl in He2.
          destruct He2 as (_ & _ & Ht2 & Hh2 & _).
          split; [| split]; try congruence. exists (r2 :: @nil Event). auto. }
      destruct Hs2 as (Ht2 & Hh2 & r2s & Hev & Hlen).
      rewrite Hev.
      assert (Hhist : turn_history
                (set_turn_history (turn_history s2 ++ [tr])
                   (if is_battle_over s2
                    then set_winner (get_winner s2) s2 else s2))
              = (turn_history self ++ [tr])%list)
        by (simpl; rewrite Hh2; reflexivity).
      assert (Hcur : current_turn
                (set_turn_history (turn_history s2 ++ [tr])
                   (if is_battle_over s2
                    then set_winner (get_winner s2) s2 else s2))
              = current_turn self + 1)
        by (destruct (is_battle_over s2); exact Ht2).
      rewrite Hhist, Hcur. simpl.
      repeat split; auto; try discriminate; try tauto; lia.
Qed.

Lemma increasing_snoc ts t :
  increasing ts → Forall (fun t' => t' < t) ts → increasing (ts ++ [t]).
Proof.
  induction ts as [| x ts IH]; simpl; intros Hinc Hall.
  - split; [constructor | exact I].
  - destruct Hinc as [Hx Hrest]. inversion Hall; subst.
    split; [| apply IH; assumption].
    apply Forall_app. split; [exact Hx | repeat constructor; assumption].
Qed.

Lemma execute_turn_history_ok self p1_action p2_action g :
  history_ok self → history_ok (execute_turn self p1_action p2_action g).1.2.
Proof.
  intros [Hinc Hall].
  pose proof (execute_turn_counters self p1_action p2_action g) as Hc.
  destruct (execute_turn self p1_action p2_action g) as [[tr s'] g'].
  simpl in *. destruct Hc as (Hturn & Hcur & _ & _ & Hhist & _).
  unfold history_ok. rewrite Hcur.
  assert (Hall' : Forall (fun t => t <= current_turn self + 1)
                    (turn <$> turn_history self))
    by (eapply Forall_impl; [exact Hall | simpl; intros; lia]).
  destruct Hhist as [-> | ->]; [split; assumption |].
  rewrite fmap_app. simpl. rewrite Hturn. split.
  - apply increasing_snoc; [exact Hinc |].
    eapply Forall_impl; [exact Hall | simpl; intros; lia].
  - apply Forall_app. split; [exact Hall' |]. repeat constructor; lia.
Qed.

(** *** Properties of the engine, beyond the claims *)

(** X1.  [get_next_alive_ball_index] returns the first index after the
    active one whose unit has not fainted, skipping fainted units only, and
    returns [None] exactly when every later unit of the team has fainted; it
    never looks at or before the active index. *)
Theorem next_alive_is_first_later_living_unit self player :
  let team := balls (side_of self player) self in
  let current_index := active_index (side_of self player) self in
  (∀ n, get_next_alive_ball_index self player = Some n ↔
        (current_index < n)%nat
        ∧ (∃ b, team !! n = Some b ∧ dead b = false)
        ∧ ∀ j b, (current_index < j < n)%nat → team !! j = Some b →
                 dead b = true)
  ∧ (get_next_alive_ball_index self player = None ↔
     ∀ j b, (current_index < j)%nat → team !! j = Some b → dead b = true).
Proof.
  split.
  - intros n. apply get_next_alive_ball_index_Some.
  - apply get_next_alive_ball_index_None.
Qed.

(** X2.  [switch_to_next_ball] either returns [False] and leaves the match
    untouched, which happens exactly when no later unit of the team is
    alive, or returns [True] after moving the team's active index strictly
    forward to a unit that has not fainted; teams and the other team's index
    are never changed. *)
Theorem switch_moves_forward_to_a_living_unit self player :
  let sd := side_of self player in
  let '(switched, s') := switch_to_next_ball self player in
  (∀ sd', balls sd' s' = balls sd' self)
  ∧ (∀ sd', sd' ≠ sd → active_index sd' s' = active_index sd' self)
  ∧ if switched then
      (active_index sd self < active_index sd s')%nat
      ∧ ∃ unit, get_active_ball s' player = Some unit ∧ dead unit = false
    else
      s' = self
      ∧ ∀ j b, (active_index sd self < j)%nat → balls sd self !! j = Some b →
               dead b = true.
Proof.
  intros sd.
  pose proof (switch_to_next_ball_board self player) as (Hn1 & _ & Hb & Hi & Hn).
  fold sd in Hi, Hn. unfold switch_to_next_ball in *.
  destruct (get_next_alive_ball_index self player) as [n |] eqn:Hnext.
  - apply get_next_alive_ball_index_Some in Hnext. fold sd in Hnext.
    destruct Hnext as (Hlt & (b & Hb' & Halive) & _).
    destruct (decide (player = p1_name self)) as [Hp | Hp]; simpl in *.
    + split; [exact Hb |]. split; [exact Hi |]. rewrite Hn.
      split; [exact Hlt |]. exists b. split; [| exact Halive].
      unfold get_active_ball. simpl. rewrite decide_True by exact Hp.
      subst sd. unfold side_of in *. rewrite decide_True in * by exact Hp.
      simpl in *. apply lookup_lt_Some in Hb' as Hlen.
      rewrite decide_True by exact Hlen. exact Hb'.
    + split; [exact Hb |]. split; [exact Hi |]. rewrite Hn.
      split; [exact Hlt |]. exists b. split; [| exact Halive].
      unfold get_active_ball. simpl. rewrite decide_False by exact Hp.
      subst sd. unfold side_of in *. rewrite decide_False in * by exact Hp.
      simpl in *. apply lookup_lt_Some in Hb' as Hlen.
      rewrite decide_True by exact Hlen. exact Hb'.
  - simpl in *. split; [exact Hb |]. split; [exact Hi |].
    split; [reflexivity |].
    apply get_next_alive_ball_index_None. exact Hnext.
Qed.

(** X3.  Over any sequence of [execute_turn] calls the players' names and
    the size of both teams stay the same, every unit keeps its name, owner,
    attack, max_health and emoji, and a unit that has fainted is never alive
    again. *)
Theorem units_keep_their_stats_and_stay_fainted self rounds g :
  let s' := (play self rounds g).1.2 in
  p1_name s' = p1_name self ∧ p2_name s' = p2_name self
  ∧ ∀ sd, length (balls sd s') = length (balls sd self)
          ∧ team_step (balls sd self) (balls sd s').
Proof.
  set (P := fun s s' : BattleInstance =>
    p1_name s' = p1_name s ∧ p2_name s' = p2_name s
    ∧ ∀ sd, team_step (balls sd s) (balls sd s')).
  assert (HP : P self (play self rounds g).1.2).
  { apply (play_keeps P).
    - intros s s' (H1 & H2 & H3 & H4 & _). split; [| split]; auto.
      intros []; simpl; [rewrite H3 | rewrite H4]; apply team_step_refl.
    - intros s1 s2 s3 (H1 & H2 & H3) (H1' & H2' & H3').
      split; [| split]; try congruence.
      intros sd. eapply team_step_trans; eauto.
    - intros s player action g0.
      destruct (single_action_names s player action g0) as [H1 H2].
      split; [| split]; auto.
      intros sd. apply single_action_team_step. }
  destruct HP as (H1 & H2 & H3). simpl. split; [| split]; auto.
  intros sd. split; [| apply H3].
  symmetry. apply (Forall2_length _ _ _ (H3 sd)).
Qed.

(** X4.  A finished match stays finished over any sequence of further
    [execute_turn] calls. *)
Theorem finished_match_stays_finished self rounds g :
  is_battle_over self = true →
  is_battle_over (play self rounds g).1.2 = true.
Proof.
  apply (play_keeps
    (fun s s' => is_battle_over s = true → is_battle_over s' = true)).
  - intros s s' (_ & _ & H3 & H4 & _). unfold is_battle_over.
    rewrite H3, H4. auto.
  - auto.
  - intros s player action g0.
    eapply action_effect_over, single_action_effect.
Qed.

Lemma finished_match_stays_finished_witness :
  let finished :=
    (play glass_match [both_attack; both_attack; both_attack] steady).1.2 in
  is_battle_over finished = true
  ∧ is_battle_over
      (play finished [alice_heals_bob_attacks; both_attack] steady).1.2 = true.
Proof.
  intros finished. split; [vm_compute; reflexivity |].
  apply (finished_match_stays_finished finished). vm_compute. reflexivity.
Defined.

(** X5.  Every [execute_turn] call adds exactly 1 to the turn counter and
    returns a record carrying the new turn number.  The record has no event
    exactly when a team has no active unit, and at most two events; the
    history is left as it was or gets this record appended at its end, and a
    round with two events is always recorded. *)
Theorem round_record_and_counters self p1_action p2_action g :
  let '(tr, s', _) := execute_turn self p1_action p2_action g in
  turn tr = current_turn self + 1
  ∧ current_turn s' = current_turn self + 1
  ∧ (events tr = [] ↔
     get_active_ball self (p1_name self) = None
     ∨ get_active_ball self (p2_name self) = None)
  ∧ (length (events tr) <= 2)%nat
  ∧ (turn_history s' = turn_history self
     ∨ turn_history s' = (turn_history self ++ [tr])%list)
  ∧ (length (events tr) = 2%nat →
     turn_history s' = (turn_history self ++ [tr])%list).
Proof. apply execute_turn_counters. Qed.

(** X6.  Over any sequence of [execute_turn] calls the history only grows at
    its end, and if its turn numbers were strictly increasing and not above
    the turn counter, they still are; the counter has advanced by the number
    of calls. *)
Theorem history_is_append_only self rounds g :
  history_ok self →
  let s' := (play self rounds g).1.2 in
  history_ok s'
  ∧ turn_history self `prefix_of` turn_history s'
  ∧ current_turn s' = current_turn self + Z.of_nat (length rounds).
Proof.
  revert self g. induction rounds as [| [a1 a2] rest IH]; intros self g Hok.
  - simpl. split; [exact Hok |]. split; [reflexivity | lia].
  - simpl.
    pose proof (execute_turn_history_ok self a1 a2 g Hok) as Hok1.
    pose proof (execute_turn_counters self a1 a2 g) as Hc.
    destruct (execute_turn self a1 a2 g) as [[tr s1] g1]. simpl in Hok1.
    destruct Hc as (_ & Hcur & _ & _ & Hhist & _).
    specialize (IH s1 g1 Hok1).
    destruct (play s1 rest g1) as [[results s2] g2]. simpl in *.
    destruct IH as (Hok2 & Hpre & Hcur2).
    split; [exact Hok2 |]. split; [| lia].
    etransitivity; [| exact Hpre].
    destruct Hhist as [-> | ->]; [reflexivity | apply prefix_app_r; reflexivity].
Qed.

Lemma history_is_append_only_witness :
  history_ok glass_match
  ∧ let s' := (play glass_match [both_attack; both_attack] steady).1.2 in
    history_ok s'
    ∧ turn_history glass_match `prefix_of` turn_history s'
    ∧ current_turn s'
      = current_turn glass_match
        + Z.of_nat (length [both_attack; both_attack]).
Proof.
  assert (H : history_ok glass_match)
    by (split; [exact I | constructor]).
  split; [exact H |].
  apply (history_is_append_only glass_match [both_attack; both_attack] steady H).
Defined.

(** *** Arithmetic of [int(n * x)] *)

Lemma Float_int_scale (n : Z) (p : Z) (q : positive) :
  Float.int (Float.of_int n * (p # q)) = Z.quot (n * p) (Z.pos q).
Proof. reflexivity. Qed.

Lemma Float_int_nonneg (x : Q) : (0 <= x)%Q → 0 <= Float.int x.
Proof.
  unfold Qle, Float.int. simpl. intros H.
  apply Z.quot_pos; lia.
Qed.

Lemma Float_int_fifth n : Float.int (Float.of_int n * (2 # 10)) = Z.quot n 5.
Proof.
  rewrite Float_int_scale.
  change (Z.pos 10) with (5 * 2). apply Z.quot_mul_cancel_r; lia.
Qed.

Lemma Float_int_half n : Float.int (Float.of_int n * (5 # 10)) = Z.quot n 2.
Proof.
  rewrite Float_int_scale.
  change (Z.pos 10) with (2 * 5). apply Z.quot_mul_cancel_r; lia.
Qed.

Lemma uniform_nonneg (r : Q) :
  (0 <= r)%Q →
  (0 <= (8 # 10) + ((12 # 10) - (8 # 10)) * r)%Q
  ∧ (0 <= (12 # 10) + ((18 # 10) - (12 # 10)) * r)%Q.
Proof.
  intros Hr. split.
  - apply (Qplus_le_compat 0 (8 # 10) 0); [discriminate |].
    apply Qmult_le_0_compat; [discriminate | exact Hr].
  - apply (Qplus_le_compat 0 (12 # 10) 0); [discriminate |].
    apply Qmult_le_0_compat; [discriminate | exact Hr].
Qed.

Lemma scaled_nonneg (n : Z) (x : Q) :
  0 <= n → (0 <= x)%Q → 0 <= Float.int (Float.of_int n * x).
Proof.
  intros Hn Hx. apply Float_int_nonneg.
  apply Qmult_le_0_compat; [| exact Hx].
  unfold Qle, Float.of_int. simpl. lia.
Qed.

Lemma unit_ok_spec b :
  unit_ok b = true ↔
  0 <= health b <= max_health b ∧ (dead b = true ↔ health b = 0).
Proof.
  unfold unit_ok. rewrite !andb_true_iff, !Z.leb_le.
  destruct (dead b), (Z.eqb_spec (health b) 0); simpl;
    intuition (try discriminate; try lia; auto).
Qed.

Lemma knock_out_check_rule f :
  let d := defender_of (knock_out_check f) in
  0 < health d ∨ (health d = 0 ∧ dead d = true).
Proof.
  unfold knock_out_check. case_decide as Hh.
  - right. destruct f; simpl; auto.
  - left. lia.
Qed.

Lemma check_keeps_unit_ok a d :
  unit_ok d = true →
  attacker_of (knock_out_check (TwoUnits a d)) = a
  ∧ unit_ok (defender_of (knock_out_check (TwoUnits a d))) = true.
Proof.
  rewrite unit_ok_spec. intros [Hh Hd].
  unfold knock_out_check. simpl. case_decide; simpl.
  - split; [reflexivity |]. apply unit_ok_spec. simpl. split; [lia | tauto].
  - split; [reflexivity |]. apply unit_ok_spec. tauto.
Qed.

Lemma hit_keeps_unit_ok a d dmg :
  0 <= dmg → unit_ok d = true →
  let f' := knock_out_check (TwoUnits a (set_health (health d - dmg) d)) in
  attacker_of f' = a ∧ unit_ok (defender_of f') = true.
Proof.
  intros Hdmg. rewrite unit_ok_spec. intros [Hh Hd].
  unfold knock_out_check. simpl. case_decide; simpl.
  - split; [reflexivity |]. apply unit_ok_spec. simpl. split; [lia | tauto].
  - split; [reflexivity |]. apply unit_ok_spec. simpl.
    split; [lia |]. split; [intros Hdead; apply Hd in Hdead; lia | lia].
Qed.

(** X7.  After [execute], unless the move missed (then both units are as
    before), the defender has positive health or stands at exactly 0 with
    the fainted flag set: the knock-out check clamps a non-positive health
    to 0 for every kind of move. *)
Theorem execute_clamps_and_marks_knock_out self f g :
  let '(r, f', _) := execute self f g in
  match miss r with
  | Some true => f' = f
  | _ =>
      0 < health (defender_of f')
      ∨ (health (defender_of f') = 0 ∧ dead (defender_of f') = true)
  end.
Proof.
  unfold execute. simpl.
  destruct (Float.ltb _ _); simpl; [reflexivity |].
  destruct (move_type self); simpl; try apply knock_out_check_rule.
  destruct (Float.ltb _ _); simpl; [reflexivity | apply knock_out_check_rule].
Qed.

(** X8.  [execute] on two distinct units keeps the health invariant
    ([0 <= health <= max_health], fainted iff health is 0) of both, provided
    the attacker has not fainted, its attack is not negative and the random
    draws are not negative. *)
Theorem execute_keeps_health_invariant self a d g :
  unit_ok a = true → unit_ok d = true →
  dead a = false → 0 <= attack a →
  (∀ n, (0 <= tape g n)%Q) →
  let '(_, f', _) := execute self (TwoUnits a d) g in
  unit_ok (attacker_of f') = true ∧ unit_ok (defender_of f') = true.
Proof.
  intros Ha Hd Halive Hatk Htape.
  unfold execute. simpl.
  destruct (Float.ltb _ _); simpl; [auto |].
  destruct (move_type self); simpl.
  - (* normal attack *)
    set (base := Float.int (Float.of_int (attack a) * _)).
    assert (Hbase : 0 <= base)
      by (apply scaled_nonneg; [exact Hatk | apply uniform_nonneg, Htape]).
    set (dmg := if Float.ltb _ _ then _ else base).
    assert (Hdmg : 0 <= dmg).
    { subst dmg. destruct (Float.ltb _ _); [| exact Hbase].
      apply scaled_nonneg; [exact Hbase | discriminate]. }
    destruct (hit_keeps_unit_ok a d dmg Hdmg Hd) as [-> ->]. auto.
  - (* heavy attack *)
    destruct (Float.ltb _ _); simpl; [auto |].
    set (dmg := Float.int (Float.of_int (attack a) * _)).
    assert (Hdmg : 0 <= dmg)
      by (apply scaled_nonneg; [exact Hatk | apply uniform_nonneg, Htape]).
    destruct (hit_keeps_unit_ok a d dmg Hdmg Hd) as [-> ->]. auto.
  - (* defend *)
    destruct (check_keeps_unit_ok (set_defending true a) d Hd) as [-> ->].
    split; [| reflexivity]. apply unit_ok_spec. apply unit_ok_spec in Ha. exact Ha.
  - (* heal *)
    set (a' := set_health _ a).
    destruct (check_keeps_unit_ok a' d Hd) as [-> ->].
    split; [| reflexivity]. subst a'.
    apply unit_ok_spec in Ha. destruct Ha as [Hh Hdead].
    rewrite Float_int_fifth. apply unit_ok_spec. simpl.
    assert (0 <= Z.quot (max_health a) 5) by (apply Z.quot_pos; lia).
    assert (health a ≠ 0) by (intros E; apply Hdead in E; congruence).
    split; [lia |]. split; [congruence | lia].
Qed.

Lemma execute_keeps_health_invariant_witness :
  let a := fresh_unit "A1" "Alice" 100 40 in
  let d := fresh_unit "B1" "Bob" 30 50 in
  let self := mkBattleMove "Heavy Strike" HEAVY_ATTACK "Powerful but risky" "" in
  let '(_, f', _) := execute self (TwoUnits a d) steady in
  unit_ok (attacker_of f') = true ∧ unit_ok (defender_of f') = true.
Proof.
  intros a d self.
  apply (execute_keeps_health_invariant self a d steady);
    try reflexivity; vm_compute; discriminate.
Defined.

(** X9.  A heal that does not miss restores a fifth of the caster's
    max_health (truncated), capped at max_health: the caster's health
    becomes [min(health + max_health ÷ 5, max_health)], the event reports
    the difference as "heal" and no damage, and nothing else of the caster
    changes. *)
Theorem heal_restores_a_fifth_capped self a d g :
  move_type self = HEAL →
  Float.ltb (peek g) (1 # 10) = false →
  let '(r, f', _) := execute self (TwoUnits a d) g in
  let healed := Z.min (health a + Z.quot (max_health a) 5) (max_health a) in
  attacker_of f' = set_health healed a
  ∧ health (attacker_of f') <= max_health a
  ∧ heal r = Some (healed - health a)
  ∧ damage r = Some 0 ∧ success r = true.
Proof.
  intros Hkind Hroll. unfold execute, peek in *. simpl in *.
  rewrite Hroll, Hkind. simpl. rewrite Float_int_fifth.
  unfold knock_out_check. simpl. case_decide; simpl; repeat split; lia.
Qed.

Lemma heal_restores_a_fifth_capped_witness :
  let self := mkBattleMove "Recover" HEAL "Restore some HP" "" in
  let a := set_health 35 (fresh_unit "A1" "Alice" 100 40) in
  let d := fresh_unit "B1" "Bob" 30 50 in
  let '(r, f', _) := execute self (TwoUnits a d) steady in
  let healed := Z.min (health a + Z.quot (max_health a) 5) (max_health a) in
  attacker_of f' = set_health healed a
  ∧ health (attacker_of f') <= max_health a
  ∧ heal r = Some (healed - health a)
  ∧ damage r = Some 0 ∧ success r = true.
Proof.
  intros self a d.
  apply (heal_restores_a_fifth_capped self a d steady); reflexivity.
Defined.

(** *** Reported damage, the defend flag, unknown moves *)

Lemma knock_out_check_defender a d0 :
  let f1 := knock_out_check (TwoUnits a d0) in
  dead (defender_of f1) = true
  ∨ (health (defender_of f1) = health d0 ∧ dead (defender_of f1) = dead d0).
Proof.
  unfold knock_out_check. simpl. case_decide; simpl; auto.
Qed.

Lemma execute_damage_report mv a d g :
  let '(r, f1, _) := execute mv (TwoUnits a d) g in
  ∃ dmg, damage r = Some dmg
         ∧ (dead (defender_of f1) = true
            ∨ (health (defender_of f1) = health d - dmg
               ∧ dead (defender_of f1) = dead d)).
Proof.
  unfold execute. simpl.
  destruct (Float.ltb _ _); simpl;
    [exists 0; split; [reflexivity | right; split; [lia | reflexivity]] |].
  destruct (move_type mv); simpl.
  - eexists. split; [reflexivity |].
    match goal with
    | |- context [knock_out_check (TwoUnits ?x ?y)] =>
        destruct (knock_out_check_defender x y) as [H | [H1 H2]]
    end; [left; exact H | right; simpl in *; split; assumption].
  - destruct (Float.ltb _ _); simpl;
      [exists 0; split; [reflexivity | right; split; [lia | reflexivity]] |].
    eexists. split; [reflexivity |].
    match goal with
    | |- context [knock_out_check (TwoUnits ?x ?y)] =>
        destruct (knock_out_check_defender x y) as [H | [H1 H2]]
    end; [left; exact H | right; simpl in *; split; assumption].
  - exists 0. split; [reflexivity |].
    destruct (knock_out_check_defender (set_defending true a) d) as [H | [H1 H2]];
      [left; exact H | right; split; [lia | exact H2]].
  - exists 0. split; [reflexivity |].
    match goal with
    | |- context [knock_out_check (TwoUnits ?x ?y)] =>
        destruct (knock_out_check_defender x y) as [H | [H1 H2]]
    end; [left; exact H | right; split; [simpl in *; lia | exact H2]].
Qed.

Lemma resolve_damage_report mv a d g :
  let '(r, f', _) := resolve mv (TwoUnits a d) g in
  dead (defender_of f') = false →
  ∃ dmg, damage r = Some dmg ∧ health (defender_of f') = health d - dmg.
Proof.
  unfold resolve.
  pose proof (execute_damage_report mv a d g) as He.
  pose proof (execute_evolves mv (TwoUnits a d) g) as Hev.
  destruct (execute mv (TwoUnits a d) g) as [[r1 f1] g1].
  destruct He as (dmg & Hdmg & Hcase). simpl in Hev.
  destruct f1 as [a1 d1 |]; [| contradiction]. simpl in *.
  destruct (defending d && is_offensive mv).
  - unfold reduce_by_defend. rewrite Hdmg.
    case_decide as Hz; simpl.
    + intros Halive. exists dmg. split; [exact Hdmg |].
      destruct Hcase as [? | [? ?]]; [congruence | assumption].
    + intros Halive. eexists. split; [reflexivity |].
      destruct Hcase as [? | [Hh ?]]; [congruence |]. rewrite Hh. lia.
  - simpl. intros Halive. exists dmg. split; [exact Hdmg |].
    destruct (defending d1); simpl in *;
      destruct Hcase as [? | [? ?]]; congruence.
Qed.

Lemma fighters_two ra rd a d : ra ≠ rd → fighters ra rd a d = TwoUnits a d.
Proof. intros H. unfold fighters. rewrite decide_False by exact H. reflexivity. Qed.

Lemma single_action_defender_slot self player action g :
  let opponent := opponent_of self player in
  let rd := active_ref self opponent in
  let s' := (_execute_single_action self player action g).1.2 in
  ∀ sd, balls sd s'
        = balls sd
            (match get_active_ball self player,
                   get_active_ball self opponent, MOVES !! move action with
             | Some a, Some d, Some mv =>
                 store_fighters (active_ref self player) rd
                   (resolve mv (fighters (active_ref self player) rd a d) g).1.2
                   self
             | _, _, _ => self
             end).
Proof.
  intros opponent rd s' sd. subst s'.
  pose proof (single_action_shape self player action g) as Hs.
  destruct (_execute_single_action self player action g) as [[r s'] g'].
  simpl in *. fold opponent in Hs. fold rd in Hs.
  destruct Hs as [(-> & _ & _ & _ & Hnone) |
                  (a & d & mv & result & f' & Ha & Hd & Hm & Hres & _ & _ & _ &
                   _ & _ & ->)].
  - destruct (get_active_ball self player); [| reflexivity].
    destruct (get_active_ball self opponent); [| reflexivity].
    destruct (MOVES !! move action); [| reflexivity].
    destruct Hnone as [? | [? | ?]]; discriminate.
  - rewrite Ha, Hd, Hm, Hres. simpl.
    destruct (dead (defender_of f')); [| reflexivity].
    apply (switch_to_next_ball_board
             (store_fighters (active_ref self player) rd f' self) opponent).
Qed.

(** X10.  When the two players are on different teams and the defender is
    still not fainted after an action, its health has dropped by exactly the
    damage reported in the returned event (by nothing when the event has no
    "damage" key): with a defending target that is the halved value. *)
Theorem reported_damage_is_health_lost self player action g d d' :
  let outcome := _execute_single_action self player action g in
  side_of self player ≠ side_of self (opponent_of self player) →
  get_active_ball self (opponent_of self player) = Some d →
  deref outcome.1.2 (active_ref self (opponent_of self player)) = Some d' →
  dead d' = false →
  health d' = health d - default 0 (damage outcome.1.1).
Proof.
  intros outcome Hsides Hd. subst outcome.
  pose proof (single_action_shape self player action g) as Hs.
  pose proof (single_action_defender_slot self player action g) as Hslot.
  destruct (_execute_single_action self player action g) as [[r s'] g'].
  simpl in *.
  set (opponent := opponent_of self player) in *.
  set (ra := active_ref self player) in *.
  set (rd := active_ref self opponent) in *.
  assert (Hne : ra ≠ rd) by (intros E; apply Hsides; exact (f_equal fst E)).
  unfold deref.
  destruct Hs as [(-> & _ & _ & Hdmg & Hnone) |
                  (a & d0 & mv & result & f' & Ha & Hd0 & Hm & Hres & _ & Hdam &
                   _)].
  - rewrite Hslot, Hdmg. simpl.
    pose proof (get_active_ball_deref _ _ _ Hd) as Hdd. unfold deref in Hdd.
    fold opponent in Hdd. fold rd in Hdd.
    assert (Hsame : balls rd.1 self !! rd.2 = Some d' → health d' = health d - 0)
      by (rewrite Hdd; intros [= <-]; lia).
    destruct (get_active_ball self player) as [a |];
      [| intros Hd' _; exact (Hsame Hd')].
    rewrite Hd.
    destruct (MOVES !! move action) as [mv |];
      [destruct Hnone as [? | [? | ?]]; congruence |].
    intros Hd' _. exact (Hsame Hd').
  - rewrite Hd in Hd0. injection Hd0 as <-.
    assert (Hslot' : ∀ sd, balls sd s' = balls sd (store_fighters ra rd f' self))
      by (intros sd; rewrite Hslot, Ha, Hd, Hm, Hres; reflexivity).
    rewrite Hslot'.
    pose proof (store_fighters_defender self ra rd f' d
                  (get_active_ball_deref _ _ _ Hd)) as Hdef.
    unfold deref in Hdef. rewrite Hdef. intros [= <-] Halive.
    pose proof (resolve_damage_report mv a d g) as Hrep.
    rewrite (fighters_two ra rd a d Hne) in Hres. rewrite Hres in Hrep.
    destruct (Hrep Halive) as (dmg & Hdmg & Hh).
    rewrite Hdam, Hdmg. simpl. exact Hh.
Qed.

Lemma reported_damage_is_health_lost_witness :
  let self :=
    (execute_turn (guarded_match 100) (choose "Alice" "defend")
       (choose "Bob" "heal") steady).1.2 in
  let d := set_defending true (fresh_unit "A1" "Alice" 100 40) in
  let d' := set_health 75 (fresh_unit "A1" "Alice" 100 40) in
  let outcome :=
    _execute_single_action self "Bob" (choose "Bob" "attack") steady in
  damage outcome.1.1 = Some 25
  ∧ health d' = health d - default 0 (damage outcome.1.1).
Proof.
  intros self d d' outcome. split; [vm_compute; reflexivity |].
  apply (reported_damage_is_health_lost self "Bob" (choose "Bob" "attack")
           steady d d').
  - vm_compute. discriminate.
  - vm_compute. reflexivity.
  - vm_compute. reflexivity.
  - reflexivity.
Defined.

(** X11.  When both players have an active unit and the move exists, the
    unit that was the target of the action has its [defending] flag off
    afterwards, whatever the move was and whether it hit or missed: a
    defend lasts for one enemy action at most. *)
Theorem defending_is_consumed_by_the_next_action self player action g :
  let opponent := opponent_of self player in
  let outcome := _execute_single_action self player action g in
  is_Some (get_active_ball self player) →
  is_Some (get_active_ball self opponent) →
  is_Some (MOVES !! move action) →
  ∃ d', deref outcome.1.2 (active_ref self opponent) = Some d'
        ∧ defending d' = false.
Proof.
  intros opponent outcome [a Ha] [d Hd] [mv Hm]. subst outcome.
  pose proof (single_action_defender_slot self player action g) as Hslot.
  simpl in Hslot. fold opponent in Hslot.
  rewrite Ha, Hd, Hm in Hslot.
  exists (defender_of
    (resolve mv (fighters (active_ref self player)
                   (active_ref self opponent) a d) g).1.2).
  split; [| apply resolve_clears_defending].
  unfold deref. rewrite Hslot.
  apply (store_fighters_defender self _ _ _ d).
  apply get_active_ball_deref, Hd.
Qed.

Lemma defending_is_consumed_by_the_next_action_witness :
  let self :=
    (execute_turn (guarded_match 100) (choose "Alice" "defend")
       (choose "Bob" "heal") steady).1.2 in
  let opponent := opponent_of self "Bob" in
  let outcome :=
    _execute_single_action self "Bob" (choose "Bob" "defend") steady in
  (defending <$> get_active_ball self opponent) = Some true
  ∧ ∃ d', deref outcome.1.2 (active_ref self opponent) = Some d'
          ∧ defending d' = false.
Proof.
  intros self opponent outcome. split; [vm_compute; reflexivity |].
  apply (defending_is_consumed_by_the_next_action self "Bob"
           (choose "Bob" "defend") steady);
    vm_compute; eexists; reflexivity.
Defined.




(** *** Draws from the random source *)

Lemma execute_draws mv f g :
  let '(_, _, g') := execute mv f g in
  tape g' = tape g
  ∧ cursor g'
    = (cursor g
       + (if Float.ltb (peek g) (1 # 10) then 1
          else match move_type mv with
               | ATTACK => 3
               | HEAVY_ATTACK =>
                   if Float.ltb (peek (advance g)) (3 # 10) then 2 else 3
               | DEFEND | HEAL => 1
               end))%nat.
Proof.
  unfold execute, peek, advance. simpl.
  destruct (Float.ltb (tape g (cursor g)) (1 # 10)); simpl;
    [split; [reflexivity | lia] |].
  destruct (move_type mv); simpl; try (split; [reflexivity | lia]).
  destruct (Float.ltb (tape g (S (cursor g))) (3 # 10)); simpl;
    split; try reflexivity; lia.
Qed.

Lemma resolve_draws mv f g : (resolve mv f g).2 = (execute mv f g).2.
Proof.
  unfold resolve. destruct (execute mv f g) as [[r1 f1] g1].
  destruct (defending (defender_of f) && is_offensive mv); [| reflexivity].
  destruct (reduce_by_defend r1 f1). reflexivity.
Qed.

Lemma single_action_draws self player action g :
  let g' := (_execute_single_action self player action g).2 in
  tape g' = tape g ∧ (cursor g <= cursor g' <= cursor g + 3)%nat.
Proof.
  pose proof (single_action_shape self player action g) as Hs.
  destruct (_execute_single_action self player action g) as [[r s'] g'].
  simpl in *.
  destruct Hs as [(_ & -> & _) | (a & d & mv & result & f' & _ & _ & _ & Hres & _)];
    [split; [reflexivity | lia] |].
  pose proof (resolve_draws mv
    (fighters (active_ref self player)
       (active_ref self (opponent_of self player)) a d) g) as Hd.
  rewrite Hres in Hd. simpl in Hd. subst g'.
  pose proof (execute_draws mv
    (fighters (active_ref self player)
       (active_ref self (opponent_of self player)) a d) g) as He.
  destruct (execute mv _ g) as [[r1 f1] g1]. simpl.
  destruct He as [Ht Hc]. split; [exact Ht |]. rewrite Hc.
  destruct (Float.ltb _ _); [lia |].
  destruct (move_type mv); try lia. destruct (Float.ltb _ _); lia.
Qed.

Lemma turn_order_draws self b1 b2 a1 a2 g :
  let g' := (turn_order self b1 b2 a1 a2 g).2 in
  tape g' = tape g
  ∧ cursor g'
    = (cursor g + (if decide (attack b1 = attack b2) then 1 else 0))%nat.
Proof.
  unfold turn_order. repeat case_decide; simpl; try lia;
    try (split; [reflexivity | lia]).
  destruct (Float.ltb _ _); simpl; split; try reflexivity; lia.
Qed.

(** X13.  A round only reads the random source: the sequence of values is
    never changed, and between 0 and 7 of them are consumed (one for a tie in
    attack, at most three per action). *)
Theorem round_consumes_at_most_seven_draws self p1_action p2_action g :
  let g' := (execute_turn self p1_action p2_action g).2 in
  tape g' = tape g ∧ (cursor g <= cursor g' <= cursor g + 7)%nat.
Proof.
  pose proof (execute_turn_shape self p1_action p2_action g) as Hs.
  destruct (execute_turn self p1_action p2_action g) as [[tr s'] g'].
  simpl in *. destruct Hs as [_ Hs].
  destruct Hs as [(_ & _ & _ & ->) |
                  (b1 & b2 & first & second & g1 & r1 & s1 & g2 &
                   _ & _ & Hord & Hact1 & Hs)]; [split; [reflexivity | lia] |].
  pose proof (turn_order_draws
                (set_current_turn (current_turn self + 1) self)
                b1 b2 p1_action p2_action g) as Ho.
  rewrite Hord in Ho. simpl in Ho. destruct Ho as [Hto Hco].
  pose proof (single_action_draws
                (set_current_turn (current_turn self + 1) self)
                first.1 first.2 g1) as H1.
  rewrite Hact1 in H1. simpl in H1. destruct H1 as [Ht1 Hc1].
  assert (Hc01 : (cursor g <= cursor g1 <= cursor g + 1)%nat)
    by (rewrite Hco; case_decide; lia).
  destruct Hs as [(_ & _ & _ & ->) | (_ & s2 & Hsecond & _)];
    [split; [congruence | lia] |].
  destruct Hsecond as [(_ & _ & ->) | (r2 & sb & _ & _ & Hact2 & _)];
    [split; [congruence | lia] |].
  pose proof (single_action_draws s1 second.1 second.2 g2) as H2.
  rewrite Hact2 in H2. simpl in H2. destruct H2 as [Ht2 Hc2].
  split; [congruence | lia].
Qed.

(** *** Fresh matches, guarded rounds *)

Lemma fresh_team_ok sd s b rest :
  active_index sd s = 0%nat → balls sd s = b :: rest → dead b = false →
  team_ok sd s.
Proof.
  intros Hi Hb Hd. unfold team_ok. rewrite Hi, Hb. simpl.
  split; [lia |]. split; [intros j b' Hj; lia |].
  intros b' [= <-] Hdead. congruence.
Qed.

Lemma battle_ball_of_fresh o ball :
  let b := battle_ball_of o ball in
  name b = Db.country (Db.ball ball) ∧ health b = Db.health ball
  ∧ attack b = Db.attack ball ∧ max_health b = health b
  ∧ dead b = false ∧ defending b = false ∧ owner b = o.
Proof.
  unfold battle_ball_of, new_BattleBall, post_init. simpl.
  case_decide; simpl; repeat split; congruence.
Qed.

(** X14.  A match that [create_battle_from_instances] returns is fresh: the
    names are the given ones, both active indices and the turn counter are
    0, the history is empty and the winner is the empty string; every unit
    has the health and attack of its database instance, max_health equal to
    health, and is neither fainted nor defending.  Such a match is not over
    and has no winner yet. *)
Theorem created_match_is_fresh n1 n2 (l1 l2 : list Db.BallInstance) battle :
  create_battle_from_instances n1 n2 l1 l2 = inr battle →
  (p1_name battle = n1 ∧ p2_name battle = n2
   ∧ p1_active_index battle = 0%nat ∧ p2_active_index battle = 0%nat
   ∧ current_turn battle = 0 ∧ turn_history battle = [] ∧ winner battle = Some "")
  ∧ ((health <$> p1_balls battle) = (Db.health <$> l1)
     ∧ (attack <$> p1_balls battle) = (Db.attack <$> l1)
     ∧ (health <$> p2_balls battle) = (Db.health <$> l2)
     ∧ (attack <$> p2_balls battle) = (Db.attack <$> l2))
  ∧ (∀ sd b, b ∈ balls sd battle →
       max_health b = health b ∧ dead b = false ∧ defending b = false
       ∧ owner b = match sd with P1 => n1 | P2 => n2 end)
  ∧ is_battle_over battle = false ∧ get_winner battle = None
  ∧ team_ok P1 battle ∧ team_ok P2 battle.
Proof.
  unfold create_battle_from_instances.
  case_decide as Hlen; [discriminate |]. intros [= <-].
  assert (H1 : length l1 = 5%nat)
    by (destruct (decide (length l1 = 5%nat)); tauto).
  assert (H2 : length l2 = 5%nat)
    by (destruct (decide (length l2 = 5%nat)); tauto).
  assert (Hmap : ∀ (f : BattleBall → Z) (h : Db.BallInstance → Z) o l,
            (∀ x, f (battle_ball_of o x) = h x) →
            f <$> map (battle_ball_of o) l = h <$> l).
  { intros f h o l Hfh. induction l as [| x l IH]; simpl; [reflexivity |].
    rewrite Hfh. f_equal. exact IH. }
  split; [repeat split |]. split.
  { simpl p1_balls. simpl p2_balls. repeat split; apply Hmap; intros x;
      apply (battle_ball_of_fresh _ x). }
  split.
  { intros sd b Hb.
    assert (∃ o x, b = battle_ball_of o x
                   ∧ o = match sd with P1 => n1 | P2 => n2 end)
      as (o & x & -> & ->).
    { destruct sd; simpl in Hb; apply list_elem_of_In, in_map_iff in Hb;
        destruct Hb as (x & <- & _); eauto. }
    pose proof (battle_ball_of_fresh
                  (match sd with P1 => n1 | P2 => n2 end) x) as Hf.
    simpl in Hf. tauto. }
  destruct l1 as [| x1 l1]; [discriminate |].
  destruct l2 as [| x2 l2]; [discriminate |].
  pose proof (battle_ball_of_fresh n1 x1) as (_ & _ & _ & _ & Hd1 & _).
  pose proof (battle_ball_of_fresh n2 x2) as (_ & _ & _ & _ & Hd2 & _).
  simpl in Hd1, Hd2.
  set (battle := new_BattleInstance n1 n2 (map (battle_ball_of n1) (x1 :: l1))
                   (map (battle_ball_of n2) (x2 :: l2))).
  assert (Ha1 : any_alive (p1_balls battle) = true)
    by (simpl; rewrite Hd1; reflexivity).
  assert (Ha2 : any_alive (p2_balls battle) = true)
    by (simpl; rewrite Hd2; reflexivity).
  split; [unfold is_battle_over; rewrite Ha1, Ha2; reflexivity |].
  split; [unfold get_winner; rewrite Ha1, Ha2; reflexivity |].
  split; eapply fresh_team_ok; simpl; eauto.
Qed.

Lemma created_match_is_fresh_witness :
  let five := (db_team ++ take 2 db_team)%list in
  let battle := new_BattleInstance "Alice" "Bob"
                  (map (battle_ball_of "Alice") five)
                  (map (battle_ball_of "Bob") five) in
  create_battle_from_instances "Alice" "Bob" five five = inr battle
  ∧ is_battle_over battle = false ∧ get_winner battle = None.
Proof.
  intros five battle.
  assert (H : create_battle_from_instances "Alice" "Bob" five five = inr battle)
    by reflexivity.
  split; [exact H |].
  pose proof (created_match_is_fresh "Alice" "Bob" five five battle H) as Hf.
  tauto.
Defined.

Lemma team_ok_board sd s s' : same_board s s' → team_ok sd s → team_ok sd s'.
Proof.
  intros (_ & _ & H3 & H4 & H5 & H6). unfold team_ok.
  destruct sd; simpl; rewrite ?H3, ?H4, ?H5, ?H6; auto.
Qed.

Lemma team_ok_active sd s :
  team_ok sd s →
  ∃ b, balls sd s !! active_index sd s = Some b
       ∧ (is_battle_over s = false → dead b = false).
Proof.
  intros (Hlen & _ & Hact).
  destruct (lookup_lt_is_Some_2 _ _ Hlen) as [b Hb].
  exists b. split; [exact Hb |].
  intros Hrun. destruct (dead b) eqn:Hd; [| reflexivity].
  specialize (Hact b Hb Hd). unfold is_battle_over in Hrun.
  destruct sd; simpl in Hact; rewrite Hact in Hrun;
    rewrite ?andb_false_r in Hrun; discriminate.
Qed.

(** X15.  If in both teams the active unit exists, all units before it have
    fainted and it has fainted itself only when its whole team has, this
    still holds after any sequence of [execute_turn] calls.  So both players
    then have an active unit, and as long as the match is not over neither
    active unit has fainted. *)
Theorem active_units_are_alive_while_running self rounds g :
  team_ok P1 self → team_ok P2 self →
  let s' := (play self rounds g).1.2 in
  team_ok P1 s' ∧ team_ok P2 s'
  ∧ ∃ b1 b2,
      get_active_ball s' (p1_name s') = Some b1
      ∧ get_active_ball s' (p2_name s') = Some b2
      ∧ (is_battle_over s' = false → dead b1 = false ∧ dead b2 = false).
Proof.
  intros H1 H2 s'.
  assert (Hkeep : ∀ sd, team_ok sd self → team_ok sd s').
  { intros sd. subst s'.
    apply (play_keeps (fun s s' => team_ok sd s → team_ok sd s')).
    - intros s s0. apply team_ok_board.
    - auto.
    - intros s player action g0. apply single_action_team_ok. }
  pose proof (Hkeep P1 H1) as H1'. pose proof (Hkeep P2 H2) as H2'.
  split; [exact H1' |]. split; [exact H2' |].
  assert (Hget : ∀ player, ∃ b, get_active_ball s' player = Some b
                   ∧ (is_battle_over s' = false → dead b = false)).
  { intros player.
    destruct (team_ok_active (side_of s' player) s') as (b & Hb & Ha);
      [unfold side_of; case_decide; assumption |].
    exists b. split; [| exact Ha].
    apply lookup_lt_Some in Hb as Hlt. revert Hb Hlt.
    unfold get_active_ball, side_of. case_decide; simpl; intros Hb Hlt;
      rewrite decide_True by exact Hlt; exact Hb. }
  destruct (Hget (p1_name s')) as (b1 & Hb1 & Ha1).
  destruct (Hget (p2_name s')) as (b2 & Hb2 & Ha2).
  exists b1, b2. auto.
Qed.

Lemma active_units_are_alive_while_running_witness :
  let s' := (play glass_match [both_attack; both_attack] steady).1.2 in
  team_ok P1 glass_match ∧ team_ok P2 glass_match
  ∧ team_ok P1 s' ∧ team_ok P2 s'
  ∧ ∃ b1 b2,
      get_active_ball s' (p1_name s') = Some b1
      ∧ get_active_ball s' (p2_name s') = Some b2
      ∧ (is_battle_over s' = false → dead b1 = false ∧ dead b2 = false).
Proof.
  intros s'.
  assert (H1 : team_ok P1 glass_match)
    by (eapply fresh_team_ok; reflexivity).
  assert (H2 : team_ok P2 glass_match)
    by (eapply fresh_team_ok; reflexivity).
  split; [exact H1 |]. split; [exact H2 |].
  apply (active_units_are_alive_while_running glass_match
           [both_attack; both_attack] steady H1 H2).
Defined.

Lemma running_alive s :
  is_battle_over s = false →
  (any_alive (p1_balls s) || any_alive (p2_balls s)) = true.
Proof.
  unfold is_battle_over. destruct (any_alive (p1_balls s)); [reflexivity |].
  discriminate.
Qed.

(** A round started on a running match leaves a team with a living unit
    and, when it ends the match, stores the outcome of [get_winner()]. *)
Lemma execute_turn_running self p1_action p2_action g :
  is_battle_over self = false →
  let s' := (execute_turn self p1_action p2_action g).1.2 in
  (any_alive (p1_balls s') || any_alive (p2_balls s')) = true
  ∧ (is_battle_over s' = true → winner s' = get_winner s').
Proof.
  intros Hrun.
  pose proof (execute_turn_shape self p1_action p2_action g) as Hs.
  destruct (execute_turn self p1_action p2_action g) as [[tr s'] g'].
  simpl in *. destruct Hs as [_ Hs].
  set (s0 := set_current_turn (current_turn self + 1) self) in *.
  assert (Hrun0 : is_battle_over s0 = false) by exact Hrun.
  destruct Hs as [(_ & -> & _) |
                  (b1 & b2 & first & second & g1 & r1 & s1 & g2 &
                   _ & _ & _ & Hact1 & Hs)].
  - split; [apply running_alive, Hrun0 | congruence].
  - pose proof (single_action_effect s0 first.1 first.2 g1) as He1.
    rewrite Hact1 in He1. simpl in He1.
    pose proof (action_effect_survivor _ _ _ He1 Hrun0) as Hal1.
    destruct Hs as [(_ & -> & _) | (Hrun1 & s2 & Hsecond & ->)];
      [split; [exact Hal1 | reflexivity] |].
    assert (Hal2 : (any_alive (p1_balls s2) || any_alive (p2_balls s2)) = true).
    { destruct Hsecond as [(-> & _) | (r2 & sb & _ & _ & Hact2 & _)];
        [exact Hal1 |].
      pose proof (single_action_effect s1 second.1 second.2 g2) as He2.
      rewrite Hact2 in He2. simpl in He2.
      apply (action_effect_survivor _ _ _ He2 Hrun1). }
    destruct (is_battle_over s2) eqn:Hover2; simpl.
    + split; [exact Hal2 | reflexivity].
    + split; [exact Hal2 |].
      change (is_battle_over (set_turn_history _ s2)) with (is_battle_over s2).
      congruence.
Qed.

Lemma execute_turn_names self p1_action p2_action g :
  let s' := (execute_turn self p1_action p2_action g).1.2 in
  p1_name s' = p1_name self ∧ p2_name s' = p2_name self.
Proof.
  apply (execute_turn_keeps
    (fun s s' => p1_name s' = p1_name s ∧ p2_name s' = p2_name s)).
  - intros s1 s2 (H1 & H2 & _). auto.
  - intros s1 s2 s3 [H1 H2] [H3 H4]. split; congruence.
  - intros s1 player action g0. apply single_action_names.
Qed.

Lemma play_while_running_over self rounds g :
  is_battle_over self = true → play_while_running self rounds g = (self, g).
Proof. intros H. destruct rounds as [| [a1 a2] rest]; simpl; rewrite ?H; reflexivity. Qed.

(** X16.  Calls of [execute_turn] that are each made only while
    [is_battle_over()] is false, on a match that nothing else touches
    between the calls and that starts with a living unit on both teams,
    never lead to a match in which both teams have no living unit: once the
    match is over, [winner] equals [get_winner()], and that is the name of
    the player whose team still has a living unit, not Draw. *)
Theorem guarded_rounds_never_end_in_a_draw self rounds g :
  is_battle_over self = false →
  let s' := (play_while_running self rounds g).1 in
  (any_alive (p1_balls s') || any_alive (p2_balls s')) = true
  ∧ (is_battle_over s' = true →
     winner s' = get_winner s'
     ∧ get_winner s'
       = Some (if any_alive (p1_balls s') then p1_name self else p2_name self)).
Proof.
  revert self g. induction rounds as [| [a1 a2] rest IH]; intros self g Hrun.
  - simpl. split; [apply running_alive, Hrun | congruence].
  - simpl. rewrite Hrun.
    pose proof (execute_turn_running self a1 a2 g Hrun) as Hr.
    pose proof (execute_turn_names self a1 a2 g) as Hn.
    destruct (execute_turn self a1 a2 g) as [[tr s1] g1]. simpl in Hr, Hn.
    destruct Hr as [Halive Hwin]. destruct Hn as [Hn1 Hn2].
    destruct (is_battle_over s1) eqn:Hover1.
    + rewrite (play_while_running_over s1 rest g1 Hover1). simpl.
      split; [exact Halive |]. intros _. split; [apply Hwin; reflexivity |].
      rewrite <- Hn1, <- Hn2. apply get_winner_survivor; assumption.
    + specialize (IH s1 g1 Hover1). rewrite Hn1, Hn2 in IH. exact IH.
Qed.

Lemma guarded_rounds_never_end_in_a_draw_witness :
  let rounds := [both_attack; both_attack; both_attack; both_attack] in
  let s' := (play_while_running glass_match rounds steady).1 in
  is_battle_over glass_match = false
  ∧ is_battle_over s' = true
  ∧ current_turn s' = 3
  ∧ (any_alive (p1_balls s') || any_alive (p2_balls s')) = true
  ∧ (is_battle_over s' = true →
     winner s' = get_winner s'
     ∧ get_winner s'
       = Some (if any_alive (p1_balls s') then p1_name glass_match
               else p2_name glass_match)).
Proof.
  intros rounds s'.
  assert (H1 : is_battle_over glass_match = false) by (vm_compute; reflexivity).
  split; [exact H1 |]. split; [vm_compute; reflexivity |].
  split; [vm_compute; reflexivity |].
  apply (guarded_rounds_never_end_in_a_draw glass_match rounds steady H1).
Defined.

(** *** Halving by defend *)

(** X19.  The damage an action reports is the damage [execute] rolled, cut
    to half (truncated toward zero) exactly when the target was defending
    and the move is a normal or a heavy attack. *)
Theorem defend_halves_the_reported_damage self player action g a d mv :
  let opponent := opponent_of self player in
  let f := fighters (active_ref self player) (active_ref self opponent) a d in
  get_active_ball self player = Some a →
  get_active_ball self opponent = Some d →
  MOVES !! move action = Some mv →
  damage (_execute_single_action self player action g).1.1
  = if defending (defender_of f) && is_offensive mv
    then (λ rolled, Z.quot rolled 2) <$> damage (execute mv f g).1.1
    else damage (execute mv f g).1.1.
Proof.
  intros opponent f Ha Hd Hm.
  pose proof (single_action_shape self player action g) as Hs.
  destruct (_execute_single_action self player action g) as [[r s'] g'].
  simpl in *. fold opponent in Hs.
  destruct Hs as [(_ & _ & _ & _ & Hnone) |
                  (a0 & d0 & mv0 & result & f' & Ha0 & Hd0 & Hm0 & Hres & _ &
                   Hdam & _)].
  - destruct Hnone as [? | [? | ?]]; congruence.
  - rewrite Ha in Ha0. rewrite Hd in Hd0. rewrite Hm in Hm0.
    injection Ha0 as <-. injection Hd0 as <-. injection Hm0 as <-.
    fold f in Hres. rewrite Hdam. clear Hdam.
    unfold resolve in Hres.
    destruct (execute mv f g) as [[r1 f1] g1]. simpl.
    destruct (defending (defender_of f) && is_offensive mv).
    + unfold reduce_by_defend in Hres.
      destruct (damage r1) as [rolled |] eqn:Hr1.
      * case_decide as Hz.
        -- injection Hres as <- _ _. rewrite Hr1, Hz. reflexivity.
        -- injection Hres as <- _ _. simpl. rewrite Float_int_half. reflexivity.
      * injection Hres as <- _ _. rewrite Hr1. reflexivity.
    + injection Hres as <- _ _. reflexivity.
Qed.

Lemma defend_halves_the_reported_damage_witness :
  let self :=
    (execute_turn (guarded_match 100) (choose "Alice" "defend")
       (choose "Bob" "heal") steady).1.2 in
  let a := fresh_unit "B1" "Bob" 100 50 in
  let d := set_defending true (fresh_unit "A1" "Alice" 100 40) in
  let mv := mkBattleMove "Quick Attack" ATTACK "A standard attack" "⚔️" in
  let f := fighters (active_ref self "Bob")
             (active_ref self (opponent_of self "Bob")) a d in
  damage (execute mv f steady).1.1 = Some 50
  ∧ damage (_execute_single_action self "Bob" (choose "Bob" "attack") steady).1.1
    = if defending (defender_of f) && is_offensive mv
      then (λ rolled, Z.quot rolled 2) <$> damage (execute mv f steady).1.1
      else damage (execute mv f steady).1.1.
Proof.
  intros self a d mv f. split; [vm_compute; reflexivity |].
  apply (defend_halves_the_reported_damage self "Bob" (choose "Bob" "attack")
           steady a d mv); vm_compute; reflexivity.
Defined.
